(** * PII file scanner: detectors, extraction client and scan orchestrator

    A shallow embedding of [main.py]: the Luhn checksum, the two compiled
    patterns with Python's backtracking [search], [content_scan] and the
    loop of [main_file_scan_interface].

    Modelling conventions.
    - A Python [str] is a [list ascii], one [ascii] per code point; the model
      covers the code points below 256.  Within that range the pattern class
      [\d] is exactly [0-9] and the class [\w] (which decides [\b]) is the
      set of alphanumeric code points plus the underscore.
    - Python exceptions are values of [exn] carried by the result type [exc];
      only classes deriving from [Exception] are modelled.
    - Dictionaries are [gmap]s keyed by the file path.
    - The thread pool is replaced by its observable behaviour: the order in
      which [as_completed] hands the futures to the loop, and whether the
      180 second budget ran out before every future was handed over. *)

From Stdlib Require Import Ascii DecimalString.
From stdpp Require Import gmap strings list fin_maps.

(** ** Exceptions *)

Inductive exn : Type :=
| ValueError
| TypeError
| KeyError
| TimeoutError
| ServiceError (code : nat).

Inductive exc (A : Type) : Type :=
| Ok (a : A)
| Raise (e : exn).
Arguments Ok {A} a.
Arguments Raise {A} e.

#[global] Instance exc_ret : MRet exc := λ A a, Ok a.
#[global] Instance exc_bind : MBind exc := λ A B f m,
  match m with
  | Ok a => f a
  | Raise e => Raise e
  end.

Fixpoint exc_mapM {A B} (f : A → exc B) (l : list A) : exc (list B) :=
  match l with
  | [] => Ok []
  | x :: l' => y ← f x ; ys ← exc_mapM f l' ; Ok (y :: ys)
  end.

(** ** Characters *)

Definition code (c : ascii) : nat := nat_of_ascii c.

Definition in_range (lo hi : nat) (c : ascii) : bool :=
  (lo <=? code c) && (code c <=? hi).

(** The class [[0-9]]. *)
Definition digit09 (c : ascii) : bool := in_range 48 57 c.

(** The class [\d]: the decimal digits. *)
Definition class_d (c : ascii) : bool := digit09 c.

(** The class [\w]: [str.isalnum] or the underscore. *)
Definition class_w (c : ascii) : bool :=
  digit09 c || in_range 65 90 c || in_range 97 122 c || (code c =? 95)
  || (code c =? 170) || (code c =? 178) || (code c =? 179) || (code c =? 181)
  || (code c =? 185) || (code c =? 186) || in_range 188 190 c
  || in_range 192 214 c || in_range 216 246 c || in_range 248 255 c.

Definition is_char (x : ascii) (c : ascii) : bool := Ascii.eqb x c.

(** ** luhn_checksum *)

(** [int(dig)] for a one-character string. *)
Definition int_of_char (c : ascii) : exc nat :=
  if class_d c then Ok (code c - 48) else Raise ValueError.

(** [digits_of(n)]: [[int(dig) for dig in str(n)]]. *)
Definition digits_of (n : list ascii) : exc (list nat) :=
  exc_mapM int_of_char n.

(** [str(k)] for a non-negative integer. *)
Definition str_of_nat (k : nat) : list ascii :=
  String.list_ascii_of_string (NilZero.string_of_uint (Nat.to_uint k)).

(** [l[0::2]]: every second element, starting with the first. *)
Fixpoint step2 {A} (l : list A) : list A :=
  match l with
  | [] => []
  | x :: l' => x :: match l' with [] => [] | _ :: l'' => step2 l'' end
  end.

(** [l[-1::-2]]: from the last element down, every second one. *)
Definition slice_m1_m2 {A} (l : list A) : list A := step2 (rev l).

(** [l[-2::-2]]: from the last but one down, every second one. *)
Definition slice_m2_m2 {A} (l : list A) : list A := step2 (tail (rev l)).

Definition sum (l : list nat) : nat := foldl Nat.add 0 l.

(** The loop [for d in even_digits: checksum += sum(digits_of(str(d * 2)))]. *)
Fixpoint add_doubled (checksum : nat) (even_digits : list nat) : exc nat :=
  match even_digits with
  | [] => Ok checksum
  | d :: rest =>
      ds ← digits_of (str_of_nat (d * 2)) ;
      add_doubled (checksum + sum ds) rest
  end.

Definition luhn_checksum (sanitized_value : list ascii) : exc bool :=
  digits ← digits_of sanitized_value ;
  let odd_digits := slice_m1_m2 digits in
  let even_digits := slice_m2_m2 digits in
  checksum ← add_doubled (sum odd_digits) even_digits ;
  Ok (checksum mod 10 =? 0).

Definition txt (s : string) : list ascii := String.list_ascii_of_string s.

(** ** Patterns and Python's backtracking matcher *)

(** The pattern constructs that occur in the two compiled patterns.  A
    capturing group does not change what is matched and is dropped. *)
Inductive regex : Type :=
| Cls (p : ascii → bool)            (* one character of a class *)
| Bnd                               (* \b *)
| Cat (r1 r2 : regex)               (* r1 r2 *)
| Alt (r1 r2 : regex)               (* r1|r2 *)
| Rep (lo hi : nat) (r : regex).    (* greedy r{lo,hi} *)

Fixpoint cat_all (rs : list regex) (last : regex) : regex :=
  match rs with
  | [] => last
  | r :: rs' => Cat r (cat_all rs' last)
  end.

(** A position in the subject string: the characters before it, nearest
    first, and the characters from it on. *)
Record cursor : Type := Cursor { before : list ascii; after : list ascii }.

Definition subject (c : cursor) : list ascii := rev (before c) ++ after c.

Definition word_before (c : cursor) : bool :=
  match before c with
  | x :: _ => class_w x
  | [] => false
  end.

Definition word_after (c : cursor) : bool :=
  match after c with
  | x :: _ => class_w x
  | [] => false
  end.

(** [\b]: exactly one side of the position is a word character. *)
Definition at_boundary (c : cursor) : bool :=
  xorb (word_before c) (word_after c).

Definition or_else {A} (x y : option A) : option A :=
  match x with
  | Some _ => x
  | None => y
  end.

(** The matcher tries the alternatives in Python's order: the left branch of
    [|] first, one more repetition before fewer.  [k] is the rest of the
    pattern. *)
Fixpoint bt {R} (r : regex) (k : cursor → option R) (c : cursor) : option R :=
  match r with
  | Cls p =>
      match after c with
      | x :: rest => if p x then k (Cursor (x :: before c) rest) else None
      | [] => None
      end
  | Bnd => if at_boundary c then k c else None
  | Cat r1 r2 => bt r1 (bt r2 k) c
  | Alt r1 r2 => or_else (bt r1 k c) (bt r2 k c)
  | Rep lo hi r1 =>
      (fix rep (hi lo : nat) (c : cursor) {struct hi} : option R :=
         match hi with
         | 0 => if lo =? 0 then k c else None
         | S hi' =>
             or_else (bt r1 (rep hi' (pred lo)) c)
                     (if lo =? 0 then k c else None)
         end) hi lo c
  end.

(** [pattern.match] at a given position: the end of the first match in
    backtracking order. *)
Definition match_at (r : regex) (c : cursor) : option cursor := bt r Some c.

(** [pattern.search]: the first position, from the left, where the pattern
    matches; the result is the start and the end of that match. *)
Fixpoint search_from (r : regex) (prev rest : list ascii)
  : option (cursor * cursor) :=
  match match_at r (Cursor prev rest) with
  | Some e => Some (Cursor prev rest, e)
  | None =>
      match rest with
      | [] => None
      | x :: rest' => search_from r (x :: prev) rest'
      end
  end.

Definition search (r : regex) (text : list ascii) : option (cursor * cursor) :=
  search_from r [] text.

(** [match_obj[0]]: the matched substring. *)
Definition group0 (m : cursor * cursor) : list ascii :=
  take (length (before m.2) - length (before m.1)) (after m.1).

Definition digits (n : nat) : regex := Rep n n (Cls class_d).

(** [social_security_regex]:
    [\b([0-9]{3})[- .]([0-9]{2})[- .]([0-9]{4})\b] *)
Definition ssn_sep (c : ascii) : bool :=
  is_char "-" c || is_char " " c || is_char "." c.

Definition social_security_regex : regex :=
  cat_all [Bnd; Rep 3 3 (Cls digit09); Cls ssn_sep; Rep 2 2 (Cls digit09);
           Cls ssn_sep; Rep 4 4 (Cls digit09)] Bnd.

(** [weak_credit_card_regex]:
    [\b((4\d{3})|(5[0-5]\d{2})|(6\d{3})|(1\d{3})|(3\d{3}))[- ]?(\d{3,4})[- ]?(\d{3,4})[- ]?(\d{3,5})\b] *)
Definition cc_sep (c : ascii) : bool := is_char "-" c || is_char " " c.

Definition cc_prefix : regex :=
  Alt (Cat (Cls (is_char "4")) (digits 3))
  (Alt (Cat (Cls (is_char "5")) (Cat (Cls (in_range 48 53)) (digits 2)))
  (Alt (Cat (Cls (is_char "6")) (digits 3))
  (Alt (Cat (Cls (is_char "1")) (digits 3))
       (Cat (Cls (is_char "3")) (digits 3))))).

Definition weak_credit_card_regex : regex :=
  cat_all [Bnd; cc_prefix;
           Rep 0 1 (Cls cc_sep); Rep 3 4 (Cls class_d);
           Rep 0 1 (Cls cc_sep); Rep 3 4 (Cls class_d);
           Rep 0 1 (Cls cc_sep); Rep 3 5 (Cls class_d)] Bnd.

(** [s.replace(x, "")] for a one-character [x]. *)
Definition remove_char (x : ascii) (s : list ascii) : list ascii :=
  filter (λ c, c ≠ x) s.

(** ** The detection step of the loop body *)

(** [if social_security_regex.search(file_content):] *)
Definition ssn_detector (file_content : list ascii) : bool :=
  bool_decide (is_Some (search social_security_regex file_content)).

(** The credit card branch: only the match that [search] returns is
    sanitized and checked. *)
Definition sanitize (possible_cc_number : list ascii) : list ascii :=
  let s1 := if bool_decide ("-"%char ∈ possible_cc_number)
            then remove_char "-" possible_cc_number else possible_cc_number in
  if bool_decide (" "%char ∈ s1) then remove_char " " s1 else s1.

Definition cc_detector (file_content : list ascii) : exc bool :=
  match search weak_credit_card_regex file_content with
  | Some weak_credit_card_match_obj =>
      luhn_checksum (sanitize (group0 weak_credit_card_match_obj))
  | None => Ok false
  end.

(** ** What a pattern matches, stated without the search order *)

Fixpoint rel_iter {A} (R : A → A → Prop) (n : nat) (c c' : A) : Prop :=
  match n with
  | 0 => c = c'
  | S n' => ∃ m, R c m ∧ rel_iter R n' m c'
  end.

(** [den r c c']: the pattern [r] can match from position [c] to
    position [c'] of the same subject. *)
Fixpoint den (r : regex) (c c' : cursor) : Prop :=
  match r with
  | Cls p =>
      ∃ x, after c = x :: after c' ∧ before c' = x :: before c ∧ p x = true
  | Bnd => c' = c ∧ at_boundary c = true
  | Cat r1 r2 => ∃ m, den r1 c m ∧ den r2 m c'
  | Alt r1 r2 => den r1 c c' ∨ den r2 c c'
  | Rep lo hi r1 => ∃ n, lo ≤ n ≤ hi ∧ rel_iter (den r1) n c c'
  end.


(** ** scan_directory_for_files *)

(** [os.walk] hands over one triple per directory: its path, its
    subdirectories and its files. *)
Definition walk_entry : Type := string * list string * list string.

Definition scan_directory_for_files (walk : list walk_entry) : list string :=
  foldl (λ return_files_list '(root, _, files_list),
           let found := (λ file, root +:+ "/" +:+ file) <$> files_list in
           match files_list with
           | [] => return_files_list
           | _ :: _ =>
               match return_files_list with
               | [] => found
               | _ :: _ => return_files_list ++ found
               end
           end) [] walk.

(** ** content_scan *)

(** What [parse_result.get('status')] and [parse_result.get('content')]
    give; [None] is Python's [None] (also for an absent key). *)
Record parse_result : Type :=
  ParseResult { status : option nat; content : option (list ascii) }.

(** Truth value of a [str] or [None]. *)
Definition truthy (parsed_content : option (list ascii)) : bool :=
  match parsed_content with
  | Some (_ :: _) => true
  | _ => false
  end.

(** [try: body except Exception as e: handler] *)
Definition try_except {A} (body : exc A) (handler : exn → exc A) : exc A :=
  match body with
  | Ok a => Ok a
  | Raise e => handler e
  end.

(** [from_file] is [tika.parser.from_file], the external extraction
    service. *)
Definition content_scan (from_file : string → exc parse_result)
    (file_path : string) : exc (string * option (list ascii)) :=
  try_except
    (parse_result ← from_file file_path ;
     let parse_status :=
       if bool_decide (status parse_result ≠ Some 200) then
         if bool_decide (status parse_result = Some 204) then "N" else "NA"
       else "Y" in
     let parsed_content := content parse_result in
     let parse_status :=
       if negb (truthy parsed_content) then "N" else parse_status in
     Ok (parse_status, parsed_content))
    (λ e, Ok ("NA", Some [])).

(** ** main_file_scan_interface *)

Record file_info : Type := FileInfo {
  scanned : string;
  credit_card_found : bool;
  social_security_found : bool
}.

(** An entry of [flagged_files_report_dict]. *)
Record report_entry : Type := ReportEntry {
  report_credit_card_found : string;
  report_social_security_found : string
}.

Definition yes_no (b : bool) : string := if b then "Yes" else "No".

Definition fresh_info : file_info := FileInfo "" false false.

(** [file_paths_dict] and [flagged_files_report_dict]. *)
Definition scan_state : Type := gmap string file_info * gmap string report_entry.

(** The detection step on [file_content]; gives the updated [file_info]
    and [flag_file]. *)
Definition detect (file_info0 : file_info) (file_content : option (list ascii))
  : exc (file_info * bool) :=
  match file_content with
  | None => Raise TypeError
  | Some text =>
      let '(info1, flag1) :=
        if ssn_detector text
        then (FileInfo (scanned file_info0) (credit_card_found file_info0) true, true)
        else (file_info0, false) in
      cc ← cc_detector text ;
      Ok (if cc : bool
          then (FileInfo (scanned info1) true (social_security_found info1), true)
          else (info1, flag1))
  end.

(** One turn of the loop over [as_completed(...)]: [future_result] is what
    [file_scan_job_future.result()] does, a returned pair or an exception. *)
Definition loop_turn (future_result : exc (string * option (list ascii)))
    (st : scan_state) (file_path : string) : exc scan_state :=
  let '(file_paths_dict, flagged_files_report_dict) := st in
  '(content_scan_status, file_content) ←
    try_except future_result (λ e, Ok ("NA", Some [])) ;
  file_info0 ← match file_paths_dict !! file_path with
               | Some i => Ok i
               | None => Raise KeyError
               end ;
  let file_info1 :=
    FileInfo content_scan_status (credit_card_found file_info0)
             (social_security_found file_info0) in
  '(file_info2, flag_file) ←
    (if bool_decide (content_scan_status = "Y")
     then detect file_info1 file_content
     else Ok (file_info1, false)) ;
  let file_paths_dict' := <[file_path := file_info2]> file_paths_dict in
  Ok (file_paths_dict',
      if flag_file : bool
      then <[file_path := ReportEntry (yes_no (credit_card_found file_info2))
                                      (yes_no (social_security_found file_info2))]>
             flagged_files_report_dict
      else flagged_files_report_dict).

(** The turn for the future of [file_path]: the future was submitted as
    [executor.submit(content_scan, file_path)]. *)
Definition loop_body (from_file : string → exc parse_result)
    (st : scan_state) (file_path : string) : exc scan_state :=
  loop_turn (content_scan from_file file_path) st file_path.

Fixpoint exc_foldl {A B} (f : A → B → exc A) (a : A) (l : list B) : exc A :=
  match l with
  | [] => Ok a
  | x :: l' => a' ← f a x ; exc_foldl f a' l'
  end.

(** What [as_completed(file_scan_jobs, 180)] does in one run: the paths
    whose futures it hands over, in that order, and whether the budget ran
    out before all futures were handed over (it then raises). *)
Record completion : Type := Completion {
  handed_over : list string;
  budget_elapsed : bool
}.

Definition initial_dict (file_paths : list string) : gmap string file_info :=
  list_to_map ((λ file_path, (file_path, fresh_info)) <$> file_paths).

(** The function with its local state: the final [file_paths_dict] and the
    report. *)
Definition scan_run (from_file : string → exc parse_result)
    (walk : list walk_entry) (run : completion) : exc scan_state :=
  let file_paths := scan_directory_for_files walk in
  let file_paths_dict := initial_dict file_paths in
  if bool_decide (file_paths_dict ≠ ∅) then
    st ← exc_foldl (loop_body from_file) (file_paths_dict, ∅) (handed_over run) ;
    if budget_elapsed run then Raise TimeoutError else Ok st
  else Ok (file_paths_dict, ∅).

Definition main_file_scan_interface (from_file : string → exc parse_result)
    (walk : list walk_entry) (run : completion)
  : exc (gmap string report_entry) :=
  st ← scan_run from_file walk run ; Ok st.2.

(** The futures of one run are those of the keys of [file_paths_dict]:
    each is handed over at most once; all of them are handed over when the
    budget does not run out, and some future is still pending when it
    does. *)
Definition run_of (walk : list walk_entry) (run : completion) : Prop :=
  NoDup (handed_over run)
  ∧ handed_over run ⊆ scan_directory_for_files walk
  ∧ if budget_elapsed run
    then ¬ scan_directory_for_files walk ⊆ handed_over run
    else scan_directory_for_files walk ⊆ handed_over run.

(** ** Vocabulary of the specification *)

(** Moving over the word [w] takes position [c] to position [c']. *)
Definition step_over (w : list ascii) (c c' : cursor) : Prop :=
  after c = w ++ after c' ∧ before c' = rev w ++ before c.

(** Between [lo] and [hi] characters, all of the class [p]. *)
Definition group (p : ascii → bool) (lo hi : nat) (w : list ascii) : bool :=
  (lo <=? length w) && (length w <=? hi) && forallb p w.

Definition ends_with_word (pre : list ascii) : bool :=
  match last pre with
  | Some x => class_w x
  | None => false
  end.

Definition starts_with_word (post : list ascii) : bool :=
  match post with
  | x :: _ => class_w x
  | [] => false
  end.

(** A token stands alone between [pre] and [post]: no word character
    (letter, digit or underscore) touches it on either side. *)
Definition standalone (pre post : list ascii) : Prop :=
  ends_with_word pre = false ∧ starts_with_word post = false.

(** Three digits, a separator, two digits, a separator, four digits. *)
Definition ssn_token (m : list ascii) : Prop :=
  ∃ a s1 b s2 d,
    m = a ++ s1 :: b ++ s2 :: d
    ∧ group digit09 3 3 a = true ∧ ssn_sep s1 = true
    ∧ group digit09 2 2 b = true ∧ ssn_sep s2 = true
    ∧ group digit09 4 4 d = true.

Definition contains_ssn (text : list ascii) : Prop :=
  ∃ pre m post, text = pre ++ m ++ post ∧ ssn_token m ∧ standalone pre post.

(** The four leading characters of a card candidate, as the pattern has
    them: 4ddd, 5[0-5]dd, 6ddd, 1ddd or 3ddd. *)
Definition cc_prefix4 (p : list ascii) : bool :=
  match p with
  | [x1; x2; x3; x4] =>
      (is_char "4" x1 || is_char "6" x1 || is_char "1" x1 || is_char "3" x1
       || (is_char "5" x1 && in_range 48 53 x2))
      && class_d x2 && class_d x3 && class_d x4
  | _ => false
  end.

(** No separator, or one hyphen or space. *)
Definition opt_sep (s : list ascii) : bool := group cc_sep 0 1 s.

(** A candidate as the pattern has it: the prefix and three digit groups of
    3-4, 3-4 and 3-5 digits, each group after an optional separator. *)
Definition weak_cc_candidate (m : list ascii) : Prop :=
  ∃ p s1 g1 s2 g2 s3 g3,
    m = p ++ s1 ++ g1 ++ s2 ++ g2 ++ s3 ++ g3
    ∧ cc_prefix4 p = true
    ∧ opt_sep s1 = true ∧ group class_d 3 4 g1 = true
    ∧ opt_sep s2 = true ∧ group class_d 3 4 g2 = true
    ∧ opt_sep s3 = true ∧ group class_d 3 5 g3 = true.

Definition strip_separators (m : list ascii) : list ascii :=
  remove_char " " (remove_char "-" m).

(** [m] occurs in [text] between [pre] and [post] as a standalone
    candidate of the pattern. *)
Definition cc_occurrence (text pre m post : list ascii) : Prop :=
  text = pre ++ m ++ post ∧ weak_cc_candidate m ∧ standalone pre post.

(** No candidate of the pattern starts further left than after [pre]. *)
Definition leftmost_start (text pre : list ascii) : Prop :=
  ∀ pre' m' post', cc_occurrence text pre' m' post' → length pre ≤ length pre'.

(** The candidate in the words of the specification: 13 to 19 digits once
    hyphens and spaces are stripped, starting with 4, 51-55, 6, 1 or 3. *)
Definition spec_prefix_class (d : list ascii) : bool :=
  match d with
  | x1 :: rest =>
      is_char "4" x1 || is_char "6" x1 || is_char "1" x1 || is_char "3" x1
      || (is_char "5" x1 && match rest with
                            | x2 :: _ => in_range 49 53 x2
                            | [] => false
                            end)
  | [] => false
  end.

Definition spec_candidate (m : list ascii) : bool :=
  let d := strip_separators m in
  group class_d 13 19 d && spec_prefix_class d
  && forallb (λ c, class_d c || cc_sep c) m.

Definition spec_contains_valid_card (text : list ascii) : Prop :=
  ∃ pre m post,
    text = pre ++ m ++ post ∧ standalone pre post
    ∧ spec_candidate m = true
    ∧ luhn_checksum (strip_separators m) = Ok true.

(** The Luhn sum in the words of the specification.  Positions count from
    the rightmost digit, which has position 0; the digits at the odd
    positions are the "every second" ones. *)
Definition luhn_term (i d : nat) : nat :=
  if Nat.odd i
  then let v := 2 * d in if 9 <? v then v / 10 + v mod 10 else v
  else d.

Fixpoint luhn_total (i : nat) (from_right : list nat) : nat :=
  match from_right with
  | [] => 0
  | d :: rest => luhn_term i d + luhn_total (S i) rest
  end.

Definition luhn_spec (ds : list nat) : bool :=
  luhn_total 0 (rev ds) mod 10 =? 0.

(** The three outcomes of the extraction client in the words of the
    specification, read off the answer of the service: status 200 is
    success, 204 is success without content, any other status or an
    exception is a failure; an empty text is the text of a successful
    extraction. *)
Definition spec_extracted (answer : exc parse_result) : Prop :=
  ∃ r, answer = Ok r ∧ status r = Some 200 ∧ truthy (content r) = true.

Definition spec_no_content (answer : exc parse_result) : Prop :=
  ∃ r, answer = Ok r
       ∧ (status r = Some 204
          ∨ (status r = Some 200 ∧ truthy (content r) = false)).

Definition spec_failed (answer : exc parse_result) : Prop :=
  (∃ e, answer = Raise e)
  ∨ ∃ r, answer = Ok r ∧ status r ≠ Some 200 ∧ status r ≠ Some 204.

Definition content_scan_as_specified (from_file : string → exc parse_result)
    (file_path : string) : Prop :=
  ∃ parse_status parsed_content,
    content_scan from_file file_path = Ok (parse_status, parsed_content)
    ∧ (parse_status = "Y" ↔ spec_extracted (from_file file_path))
    ∧ (parse_status = "N" ↔ spec_no_content (from_file file_path))
    ∧ (parse_status = "NA" ↔ spec_failed (from_file file_path)).

(** The answers on which the last test of [content_scan] overwrites the
    status "NA": a status other than 200 and 204, and no text. *)
Definition failed_without_text (answer : exc parse_result) : Prop :=
  ∃ r, answer = Ok r ∧ status r ≠ Some 200 ∧ status r ≠ Some 204
       ∧ truthy (content r) = false.


(** The terminal findings of a file whose future was handed over. *)
Definition findings (from_file : string → exc parse_result)
    (file_path : string) : file_info :=
  match content_scan from_file file_path with
  | Ok (parse_status, parsed_content) =>
      match parsed_content with
      | Some text =>
          if bool_decide (parse_status = "Y")
          then FileInfo parse_status
                        (match cc_detector text with Ok b => b | Raise _ => false end)
                        (ssn_detector text)
          else FileInfo parse_status false false
      | None => FileInfo parse_status false false
      end
  | Raise _ => FileInfo "NA" false false
  end.

Definition flagged (i : file_info) : bool :=
  social_security_found i || credit_card_found i.

Definition entry_of (i : file_info) : report_entry :=
  ReportEntry (yes_no (credit_card_found i)) (yes_no (social_security_found i)).

(** ** A scenario used to exercise the statements

    A directory with three files: one holds a social security number, one a
    card-like number that fails the checksum, one plain prose. *)
Definition scenario_walk : list walk_entry :=
  [("docs", [], ["a.txt"; "b.txt"; "c.txt"])].

Definition scenario_service (file_path : string) : exc parse_result :=
  if bool_decide (file_path = "docs/a.txt")
  then Ok (ParseResult (Some 200) (Some (txt "SSN: 123-45-6789")))
  else if bool_decide (file_path = "docs/b.txt")
  then Ok (ParseResult (Some 200) (Some (txt "4111-1111-1111-1112")))
  else if bool_decide (file_path = "docs/c.txt")
  then Ok (ParseResult (Some 200) (Some (txt "plain prose")))
  else Raise (ServiceError 404).


(** A text whose first card-like number fails the checksum and whose
    second one passes it. *)
Definition two_cards : list ascii := txt "4111111111111112 4111111111111111".
Section Matcher.
Context {R : Type}.
Implicit Types (k : cursor → option R) (c : cursor).

Lemma or_else_Some (x y : option R) (v : R) :
  or_else x y = Some v → x = Some v ∨ (x = None ∧ y = Some v).
Proof. destruct x; simpl; intros; [left | right]; auto. Qed.

Lemma or_else_is_Some (x y : option R) :
  is_Some x ∨ is_Some y → is_Some (or_else x y).
Proof. destruct x; simpl; intros [H|H]; eauto. by destruct H. Qed.

(** Every answer of the matcher comes from a match of the pattern. *)
Lemma bt_sound r : ∀ k c v,
  bt r k c = Some v → ∃ c', den r c c' ∧ k c' = Some v.
Proof.
  induction r as [p| |r1 IH1 r2 IH2|r1 IH1 r2 IH2|lo hi r1 IH1];
    intros k c v; simpl.
  - destruct c as [b [|x rest]]; simpl; [done|].
    destruct (p x) eqn:Hp; [|done]. intros Hk.
    exists (Cursor (x :: b) rest). eauto 6.
  - destruct (at_boundary c) eqn:Hb; [|done]. eauto.
  - intros H. apply IH1 in H as (m & Hm & H).
    apply IH2 in H as (c' & Hc' & H). eauto.
  - intros H. apply or_else_Some in H as [H|[_ H]].
    + apply IH1 in H as (c' & ? & ?). eauto.
    + apply IH2 in H as (c' & ? & ?). eauto.
  - revert lo c. induction hi as [|hi IHhi]; intros lo c.
    + destruct (lo =? 0) eqn:Hlo; [|done]. apply Nat.eqb_eq in Hlo.
      intros Hk. exists c. split; [|done]. exists 0. split; [lia|done].
    + intros H. apply or_else_Some in H as [H|[_ H]].
      * apply IH1 in H as (m & Hm & H).
        apply IHhi in H as (c' & (n & Hn & Hit) & Hk).
        exists c'. split; [|done]. exists (S n). split; [lia|].
        simpl. eauto.
      * destruct (lo =? 0) eqn:Hlo; [|done]. apply Nat.eqb_eq in Hlo.
        exists c. split; [|done]. exists 0. split; [lia|done].
Qed.

(** If the pattern has a match that the rest of the pattern accepts, the
    matcher finds one (possibly another). *)
Lemma bt_complete r : ∀ k c c',
  den r c c' → is_Some (k c') → is_Some (bt r k c).
Proof.
  induction r as [p| |r1 IH1 r2 IH2|r1 IH1 r2 IH2|lo hi r1 IH1];
    intros k c c'; simpl.
  - intros (x & Ha & Hb & Hp) Hk. destruct c as [b a], c' as [b' a'].
    simpl in *. subst. by rewrite Hp.
  - intros [-> Hb] Hk. by rewrite Hb.
  - intros (m & H1 & H2) Hk. eapply IH1; [done|]. by eapply IH2.
  - intros [H|H] Hk; apply or_else_is_Some; [left|right]; eauto.
  - intros (n & Hn & Hit) Hk. revert lo c n Hn Hit.
    induction hi as [|hi IHhi]; intros lo c n Hn Hit.
    + assert (n = 0) as -> by lia. assert (lo = 0) as -> by lia.
      simpl in Hit. by subst.
    + apply or_else_is_Some. destruct n as [|n].
      * assert (lo = 0) as -> by lia. simpl in Hit. subst. by right.
      * destruct Hit as (m & Hm & Hit). left.
        eapply IH1; [done|]. eapply IHhi; [|done]. lia.
Qed.
End Matcher.

(** ** The Luhn checksum *)

Section Luhn.
Implicit Types (l ds : list nat) (s : list ascii).

Lemma foldl_add_acc l : ∀ a, foldl Nat.add a l = a + foldl Nat.add 0 l.
Proof.
  induction l as [|x l IH]; intros a; simpl; [lia|].
  rewrite (IH (a + x)), (IH x). lia.
Qed.

Lemma sum_cons x l : sum (x :: l) = x + sum l.
Proof. unfold sum. simpl. apply foldl_add_acc. Qed.

Lemma step2_cons {A} (a : A) (xs : list A) :
  step2 (a :: xs) = a :: step2 (tail xs).
Proof. by destruct xs. Qed.

Lemma int_of_char_Ok c d : int_of_char c = Ok d → class_d c = true ∧ d ≤ 9.
Proof.
  unfold int_of_char. destruct (class_d c) eqn:Hc; [|done].
  intros [= <-]. split; [done|].
  unfold class_d, digit09, in_range in Hc.
  apply andb_true_iff in Hc as [_ Hc]. apply Nat.leb_le in Hc. lia.
Qed.

Lemma exc_mapM_cons_Ok {A B} (f : A → exc B) (a : A) (xs : list A) ys :
  exc_mapM f (a :: xs) = Ok ys →
  ∃ y ys', ys = y :: ys' ∧ f a = Ok y ∧ exc_mapM f xs = Ok ys'.
Proof.
  simpl. destruct (f a) as [y|]; simpl; [|done].
  destruct (exc_mapM f xs) as [ys'|]; simpl; [|done].
  intros [= <-]. eauto.
Qed.

Lemma digits_of_Ok s ds :
  digits_of s = Ok ds → forallb class_d s = true ∧ Forall (λ d, d ≤ 9) ds.
Proof.
  unfold digits_of. revert ds. induction s as [|c s IH]; intros ds.
  - intros [= <-]. by split.
  - intros H. apply exc_mapM_cons_Ok in H as (y & ys & -> & Hy & Hys).
    apply int_of_char_Ok in Hy as [Hc Hy]. apply IH in Hys as [Hs Hys].
    simpl. rewrite Hc, Hs. by split; [|constructor].
Qed.

Lemma digits_of_digits s :
  forallb class_d s = true → ∃ ds, digits_of s = Ok ds.
Proof.
  unfold digits_of. induction s as [|c s IH]; simpl; [eauto|].
  intros H. apply andb_true_iff in H as [Hc Hs].
  destruct (IH Hs) as [ds ->]. unfold int_of_char. rewrite Hc. simpl. eauto.
Qed.

(** The digit sum of a doubled digit, as the loop computes it through
    [str] and [digits_of], is the term of the specification. *)
Lemma doubled_digit d :
  d ≤ 9 → ∃ ds, digits_of (str_of_nat (d * 2)) = Ok ds ∧ sum ds = luhn_term 1 d.
Proof.
  intros Hd.
  do 10 (destruct d as [|d]; [eexists; split; reflexivity|]). lia.
Qed.

Lemma luhn_total_parity l : ∀ i, luhn_total (S (S i)) l = luhn_total i l.
Proof.
  induction l as [|d l IH]; intros i; simpl; [done|].
  rewrite IH. unfold luhn_term. by rewrite Nat.odd_succ_succ.
Qed.

(** The two slices and the loop add up to the total of the specification,
    whichever of the two slices the list starts with. *)
Lemma add_doubled_total l :
  Forall (λ d, d ≤ 9) l →
  (∀ acc, ∃ e, add_doubled acc (step2 (tail l)) = Ok (acc + e)
               ∧ sum (step2 l) + e = luhn_total 0 l)
  ∧ (∀ acc, ∃ e, add_doubled acc (step2 l) = Ok (acc + e)
                 ∧ sum (step2 (tail l)) + e = luhn_total 1 l).
Proof.
  induction 1 as [|x l Hx Hl [IHP IHQ]].
  - split; intros acc; exists 0; simpl; by rewrite Nat.add_0_r.
  - split; intros acc; rewrite step2_cons; simpl tail.
    + destruct (IHQ acc) as (e & He & Hsum). exists e. split; [done|].
      rewrite sum_cons. simpl. unfold luhn_term at 1. simpl. lia.
    + destruct (doubled_digit x Hx) as (ds & Hds & Hs).
      destruct (IHP (acc + sum ds)) as (e & He & Hsum).
      exists (sum ds + e). simpl. rewrite Hds. simpl. rewrite He.
      split; [f_equal; lia|]. rewrite luhn_total_parity, Hs. lia.
Qed.

(** [luhn_checksum] computes the checksum of the specification on the
    digits of its argument, and raises where [int] does. *)
Lemma luhn_checksum_spec s :
  luhn_checksum s = (ds ← digits_of s ; Ok (luhn_spec ds)).
Proof.
  unfold luhn_checksum. destruct (digits_of s) as [ds|e] eqn:Hds; simpl; [|done].
  apply digits_of_Ok in Hds as [_ Hds].
  assert (Forall (λ d, d ≤ 9) (rev ds)) as Hrev.
  { by apply List.Forall_rev. }
  destruct (add_doubled_total _ Hrev) as [HP _].
  destruct (HP (sum (slice_m1_m2 ds))) as (e & He & Hsum).
  unfold slice_m2_m2. rewrite He. simpl. unfold luhn_spec.
  unfold slice_m1_m2 in *. by rewrite Hsum.
Qed.

Lemma luhn_checksum_digits s :
  forallb class_d s = true → ∃ b, luhn_checksum s = Ok b.
Proof.
  intros H. apply digits_of_digits in H as [ds Hds].
  rewrite luhn_checksum_spec, Hds. simpl. eauto.
Qed.

Lemma luhn_total_zeros l : Forall (λ d, d = 0) l → ∀ i, luhn_total i l = 0.
Proof.
  induction 1 as [|d l -> _ IH]; intros i; simpl; [done|].
  rewrite IH. unfold luhn_term. by destruct (Nat.odd i).
Qed.

Lemma digits_of_zeros n :
  digits_of (replicate n "0"%char) = Ok (replicate n 0).
Proof.
  unfold digits_of. induction n as [|n IH]; simpl; [done|].
  by rewrite IH.
Qed.
End Luhn.

(** ** Positions and what the pattern constructs match *)

Section Positions.
Implicit Types (c : cursor) (w pre post : list ascii) (p : ascii → bool).

Lemma cursor_eq c c' : before c = before c' → after c = after c' → c = c'.
Proof. destruct c, c'; simpl; congruence. Qed.

Lemma step_over_nil c c' : step_over [] c c' ↔ c = c'.
Proof.
  unfold step_over; simpl. split.
  - intros [Ha Hb]. by apply cursor_eq.
  - by intros ->.
Qed.

Lemma step_over_app w1 w2 c c' :
  step_over (w1 ++ w2) c c' ↔ ∃ m, step_over w1 c m ∧ step_over w2 m c'.
Proof.
  unfold step_over. split.
  - intros [Ha Hb].
    exists (Cursor (rev w1 ++ before c) (w2 ++ after c')); simpl.
    rewrite Ha, Hb, rev_app_distr, <- !app_assoc. done.
  - intros (m & [Ha1 Hb1] & [Ha2 Hb2]).
    rewrite Ha1, Ha2, Hb2, Hb1, rev_app_distr, <- !app_assoc. done.
Qed.

Lemma step_over_cons x w c c' :
  step_over (x :: w) c c' ↔ ∃ m, step_over [x] c m ∧ step_over w m c'.
Proof. apply (step_over_app [x] w). Qed.

Lemma step_over_between pre w post :
  step_over w (Cursor (rev pre) (w ++ post)) (Cursor (rev w ++ rev pre) post).
Proof. by split. Qed.

Lemma den_cls p c c' : den (Cls p) c c' ↔ ∃ x, p x = true ∧ step_over [x] c c'.
Proof.
  simpl. unfold step_over. simpl.
  split; intros (x & H); exists x; tauto.
Qed.

Lemma rel_iter_cls p n : ∀ c c',
  rel_iter (den (Cls p)) n c c'
  ↔ ∃ w, length w = n ∧ forallb p w = true ∧ step_over w c c'.
Proof.
  induction n as [|n IH]; intros c c'.
  - simpl. split.
    + intros ->. exists []. split; [done|]. split; [done|]. by apply step_over_nil.
    + intros (w & Hlen & _ & Hw). destruct w; [|done].
      by apply step_over_nil in Hw.
  - cbn [rel_iter]. split.
    + intros (m & Hm & Hit). apply den_cls in Hm as (x & Hx & Hm).
      apply IH in Hit as (w & Hlen & Hw & Hstep).
      exists (x :: w). simpl. rewrite Hx, Hw, Hlen.
      split; [done|]. split; [done|]. apply step_over_cons. eauto.
    + intros (w & Hlen & Hw & Hstep). destruct w as [|x w]; [done|].
      simpl in Hlen, Hw. apply andb_true_iff in Hw as [Hx Hw].
      apply step_over_cons in Hstep as (m & Hm & Hstep).
      exists m. split; [apply den_cls; eauto|].
      apply IH. exists w. split; [lia|done].
Qed.

Lemma den_rep_cls lo hi p c c' :
  den (Rep lo hi (Cls p)) c c'
  ↔ ∃ w, group p lo hi w = true ∧ step_over w c c'.
Proof.
  cbn [den]. unfold group. split.
  - intros (n & Hn & Hit). apply rel_iter_cls in Hit as (w & Hlen & Hw & Hs).
    exists w. split; [|done]. rewrite Hw, andb_true_r.
    apply andb_true_iff. split; [apply Nat.leb_le|apply Nat.leb_le]; lia.
  - intros (w & Hg & Hs). apply andb_true_iff in Hg as [Hg Hw].
    apply andb_true_iff in Hg as [Hlo Hhi].
    apply Nat.leb_le in Hlo, Hhi.
    exists (length w). split; [lia|]. apply rel_iter_cls. eauto.
Qed.

(** A match never leaves the subject: it moves over some word. *)
Lemma den_positions r : ∀ c c', den r c c' → ∃ w, step_over w c c'.
Proof.
  induction r as [p| |r1 IH1 r2 IH2|r1 IH1 r2 IH2|lo hi r1 IH1];
    intros c c'.
  - intros H. apply den_cls in H as (x & _ & H). eauto.
  - intros [-> _]. exists []. by apply step_over_nil.
  - intros (m & H1 & H2). apply IH1 in H1 as [w1 H1].
    apply IH2 in H2 as [w2 H2]. exists (w1 ++ w2).
    apply step_over_app. eauto.
  - intros [H|H]; eauto.
  - intros (n & _ & Hit). revert c Hit.
    induction n as [|n IHn]; intros c Hit.
    + simpl in Hit. subst. exists []. by apply step_over_nil.
    + destruct Hit as (m & Hm & Hit). apply IH1 in Hm as [w1 H1].
      apply IHn in Hit as [w2 H2]. exists (w1 ++ w2).
      apply step_over_app. eauto.
Qed.

Lemma step_over_inv w c c' :
  step_over w c c' →
  ∃ pre post, c = Cursor (rev pre) (w ++ post)
              ∧ c' = Cursor (rev w ++ rev pre) post.
Proof.
  intros [Ha Hb]. exists (rev (before c)), (after c').
  rewrite rev_involutive. split; apply cursor_eq; done.
Qed.

Lemma step_over_unique w w' pre post post' :
  step_over w' (Cursor (rev pre) (w ++ post)) (Cursor (rev w ++ rev pre) post')
  → w' = w.
Proof.
  intros [_ Hb]. simpl in Hb. apply app_inv_tail in Hb.
  rewrite <- (rev_involutive w), <- (rev_involutive w'). by f_equal.
Qed.

(** ** Word boundaries around a token *)

Lemma word_before_rev pre rest :
  word_before (Cursor (rev pre) rest) = ends_with_word pre.
Proof.
  unfold word_before, ends_with_word. simpl.
  destruct pre as [|x pre _] using rev_ind; [done|].
  by rewrite rev_app_distr, last_snoc.
Qed.

Lemma word_after_app m post :
  starts_with_word m = true →
  word_after (Cursor (rev m) (m ++ post)) = true.
Proof. unfold word_after. by destruct m. Qed.

Lemma boundary_before pre m post :
  starts_with_word m = true →
  at_boundary (Cursor (rev pre) (m ++ post)) = negb (ends_with_word pre).
Proof.
  intros Hm. unfold at_boundary. rewrite word_before_rev.
  unfold word_after. destruct m as [|x m]; [done|]. simpl in *.
  rewrite Hm. by destruct (ends_with_word pre).
Qed.

Lemma boundary_after pre m post :
  ends_with_word m = true →
  at_boundary (Cursor (rev m ++ rev pre) post) = negb (starts_with_word post).
Proof.
  intros Hm. unfold at_boundary.
  rewrite <- rev_app_distr, word_before_rev.
  assert (ends_with_word (pre ++ m) = true) as ->.
  { unfold ends_with_word in *.
    destruct m as [|x m _] using rev_ind; [done|].
    rewrite app_assoc, last_snoc. by rewrite last_snoc in Hm. }
  unfold word_after, starts_with_word. simpl. by destruct post.
Qed.

Lemma negb_false_true b : negb b = true ↔ b = false.
Proof. by destruct b. Qed.

(** A token that starts and ends with a word character lies between two
    word boundaries exactly when it stands alone. *)
Lemma boundaries_standalone pre m post :
  starts_with_word m = true → ends_with_word m = true →
  (at_boundary (Cursor (rev pre) (m ++ post)) = true
   ∧ at_boundary (Cursor (rev m ++ rev pre) post) = true)
  ↔ standalone pre post.
Proof.
  intros H1 H2. rewrite (boundary_before _ _ _ H1), (boundary_after _ _ _ H2).
  unfold standalone. by rewrite !negb_false_true.
Qed.
End Positions.

(** ** The two patterns *)

Section Patterns.
Implicit Types (c : cursor) (w pre post : list ascii) (p : ascii → bool).

Lemma den_cat r1 r2 c c' :
  den (Cat r1 r2) c c' ↔ ∃ m, den r1 c m ∧ den r2 m c'.
Proof. done. Qed.

Lemma den_alt r1 r2 c c' : den (Alt r1 r2) c c' ↔ den r1 c c' ∨ den r2 c c'.
Proof. done. Qed.

Lemma den_bnd c c' : den Bnd c c' ↔ c' = c ∧ at_boundary c = true.
Proof. done. Qed.

Lemma group_forallb p lo hi w : group p lo hi w = true → forallb p w = true.
Proof. unfold group. intros H. by apply andb_true_iff in H as [_ H]. Qed.

Lemma group_length p lo hi w : group p lo hi w = true → lo ≤ length w ≤ hi.
Proof.
  unfold group. intros H. apply andb_true_iff in H as [H _].
  apply andb_true_iff in H as [H1 H2]. apply Nat.leb_le in H1, H2. lia.
Qed.

Lemma group_intro p lo hi w :
  lo ≤ length w ≤ hi → forallb p w = true → group p lo hi w = true.
Proof.
  intros [H1 H2] Hw. unfold group. rewrite Hw.
  apply Nat.leb_le in H1, H2. by rewrite H1, H2.
Qed.

Lemma digit09_word x : digit09 x = true → class_w x = true.
Proof. unfold class_w. by intros ->. Qed.

Lemma in_range_digit x : in_range 48 53 x = true → class_d x = true.
Proof.
  unfold class_d, digit09, in_range. intros H.
  apply andb_true_iff in H as [H1 H2]. apply Nat.leb_le in H1, H2.
  apply andb_true_iff. split; apply Nat.leb_le; lia.
Qed.

Lemma is_char_eq x y : is_char x y = true → y = x.
Proof. unfold is_char. intros H. by apply Ascii.eqb_eq in H. Qed.
End Patterns.

Ltac den_inv :=
repeat match goal with
  | H : den (Cat _ _) _ _ |- _ => apply den_cat in H as (? & ? & H)
  | H : den Bnd _ _ |- _ => apply den_bnd in H as [-> H]
  | H : den (Rep _ _ (Cls _)) _ _ |- _ => apply den_rep_cls in H as (? & ? & H)
  | H : den (Cls _) _ _ |- _ => apply den_cls in H as (? & ? & H)
  | H : den (Alt _ _) _ _ |- _ => apply den_alt in H as [H|H]
  end.

Section PatternShapes.
Implicit Types (c : cursor) (w pre post : list ascii).

Lemma den_ssn c c' :
  den social_security_regex c c'
  ↔ at_boundary c = true ∧ at_boundary c' = true
    ∧ ∃ m, ssn_token m ∧ step_over m c c'.
Proof.
  unfold social_security_regex. cbn [cat_all]. split.
  - intros H. den_inv.
    split; [done|]. split; [done|].
    match goal with
    | H1 : step_over ?a _ _, H2 : step_over [?s1] _ _,
      H3 : step_over ?b _ _, H4 : step_over [?s2] _ _,
      H5 : step_over ?d _ _ |- _ =>
        exists (a ++ s1 :: b ++ s2 :: d); split;
        [ exists a, s1, b, s2, d; done |]
    end.
    apply step_over_app. eexists; split; [done|].
    apply step_over_cons. eexists; split; [done|].
    apply step_over_app. eexists; split; [done|].
    apply step_over_cons. eexists; split; [done|]. done.
  - intros (Hb & Hb' & m & (a & s1 & b & s2 & d & -> & Ha & Hs1 & Hbb & Hs2 & Hd) & H).
    apply step_over_app in H as (m1 & H1 & H).
    apply step_over_cons in H as (m2 & H2 & H).
    apply step_over_app in H as (m3 & H3 & H).
    apply step_over_cons in H as (m4 & H4 & H).
    apply den_cat. exists c. split; [by apply den_bnd|].
    apply den_cat. exists m1. split; [apply den_rep_cls; eauto|].
    apply den_cat. exists m2. split; [apply den_cls; eauto|].
    apply den_cat. exists m3. split; [apply den_rep_cls; eauto|].
    apply den_cat. exists m4. split; [apply den_cls; eauto|].
    apply den_cat. exists c'. split; [apply den_rep_cls; eauto|].
    by apply den_bnd.
Qed.
Lemma group3_inv p w :
  group p 3 3 w = true →
  ∃ x y z, w = [x; y; z] ∧ p x = true ∧ p y = true ∧ p z = true.
Proof.
  intros H. pose proof (group_length _ _ _ _ H) as Hlen.
  apply group_forallb in H.
  destruct w as [|x [|y [|z [|? ?]]]]; simpl in Hlen; try lia.
  simpl in H. rewrite andb_true_r in H.
  apply andb_true_iff in H as [Hx H]. apply andb_true_iff in H as [Hy Hz].
  eauto 8.
Qed.

Lemma group2_inv p w :
  group p 2 2 w = true → ∃ x y, w = [x; y] ∧ p x = true ∧ p y = true.
Proof.
  intros H. pose proof (group_length _ _ _ _ H) as Hlen.
  apply group_forallb in H.
  destruct w as [|x [|y [|? ?]]]; simpl in Hlen; try lia.
  simpl in H. rewrite andb_true_r in H.
  apply andb_true_iff in H as [Hx Hy]. eauto 8.
Qed.

Lemma den_cc_prefix c c' :
  den cc_prefix c c' ↔ ∃ p, cc_prefix4 p = true ∧ step_over p c c'.
Proof.
  unfold cc_prefix, digits. split.
  - intros H. den_inv;
      repeat match goal with
        | H : group _ 3 3 _ = true |- _ =>
            apply group3_inv in H as (? & ? & ? & -> & ? & ? & ?)
        | H : group _ 2 2 _ = true |- _ =>
            apply group2_inv in H as (? & ? & -> & ? & ?)
        end;
      match goal with
      | H1 : step_over [?x1] _ _, H2 : step_over [?x2] _ _,
        H3 : step_over [?x3; ?x4] _ _ |- _ =>
          exists [x1; x2; x3; x4]; split;
          [| apply step_over_cons; eexists; split; [exact H1|];
             apply step_over_cons; eexists; split; [exact H2|]; exact H3 ]
      | H1 : step_over [?x1] _ _, H2 : step_over [?x2; ?x3; ?x4] _ _ |- _ =>
          exists [x1; x2; x3; x4]; split;
          [| apply step_over_cons; eexists; split; [exact H1|]; exact H2 ]
      end;
      repeat match goal with
        | H : is_char _ _ = true |- _ => apply is_char_eq in H; subst
        end;
      try match goal with
        | H : in_range 48 53 _ = true |- _ =>
            pose proof (in_range_digit _ H)
        end;
      cbn [cc_prefix4];
      repeat match goal with
        | H : _ = true |- _ => rewrite H; clear H
        end;
      reflexivity.
  - intros (p & Hp & H).
    destruct p as [|x1 [|x2 [|x3 [|x4 [|? ?]]]]]; try done.
    cbn [cc_prefix4] in Hp.
    apply andb_true_iff in Hp as [Hp H4]. apply andb_true_iff in Hp as [Hp H3].
    apply andb_true_iff in Hp as [Hp H2].
    apply step_over_cons in H as (m1 & Hs1 & H).
    assert (group class_d 3 3 [x2; x3; x4] = true) as Hg.
    { unfold group. cbn [length forallb]. by rewrite H2, H3, H4. }
    apply orb_true_iff in Hp as [Hp|Hp];
      [apply orb_true_iff in Hp as [Hp|Hp];
       [apply orb_true_iff in Hp as [Hp|Hp];
        [apply orb_true_iff in Hp as [Hp|Hp]|]|]|].
    + left. apply den_cat. exists m1. split; [apply den_cls; eauto|].
      apply den_rep_cls. eauto.
    + right; right; left. apply den_cat. exists m1.
      split; [apply den_cls; eauto|]. apply den_rep_cls. eauto.
    + right; right; right; left. apply den_cat. exists m1.
      split; [apply den_cls; eauto|]. apply den_rep_cls. eauto.
    + right; right; right; right. apply den_cat. exists m1.
      split; [apply den_cls; eauto|]. apply den_rep_cls. eauto.
    + apply andb_true_iff in Hp as [E5 Hr].
      right; left. apply den_cat. exists m1. split; [apply den_cls; eauto|].
      apply step_over_cons in H as (m2 & Hs2 & H).
      apply den_cat. exists m2. split; [apply den_cls; eauto|].
      apply den_rep_cls. exists [x3; x4]. split; [|done].
      unfold group. cbn [length forallb]. by rewrite H3, H4.
Qed.
Lemma den_weak_cc c c' :
  den weak_credit_card_regex c c'
  ↔ at_boundary c = true ∧ at_boundary c' = true
    ∧ ∃ m, weak_cc_candidate m ∧ step_over m c c'.
Proof.
  unfold weak_credit_card_regex. cbn [cat_all]. split.
  - intros H. den_inv.
    match goal with
    | H : den cc_prefix _ _ |- _ => apply den_cc_prefix in H as (p & Hp & H)
    end.
    split; [done|]. split; [done|].
    match goal with
    | H1 : step_over ?s1 _ _, H2 : step_over ?g1 _ _,
      H3 : step_over ?s2 _ _, H4 : step_over ?g2 _ _,
      H5 : step_over ?s3 _ _, H6 : step_over ?g3 _ _,
      G1 : group cc_sep 0 1 ?s1 = true, G2 : group class_d 3 4 ?g1 = true,
      G3 : group cc_sep 0 1 ?s2 = true, G4 : group class_d 3 4 ?g2 = true,
      G5 : group cc_sep 0 1 ?s3 = true, G6 : group class_d 3 5 ?g3 = true
      |- _ =>
        exists (p ++ s1 ++ g1 ++ s2 ++ g2 ++ s3 ++ g3); split;
        [ exists p, s1, g1, s2, g2, s3, g3; done |]
    end.
    repeat (apply step_over_app; eexists; split; [eassumption|]).
    done.
  - intros (Hb & Hb' & m & (p & s1 & g1 & s2 & g2 & s3 & g3 & -> & Hp
                            & Hs1 & Hg1 & Hs2 & Hg2 & Hs3 & Hg3) & H).
    apply step_over_app in H as (m1 & H1 & H).
    apply step_over_app in H as (m2 & H2 & H).
    apply step_over_app in H as (m3 & H3 & H).
    apply step_over_app in H as (m4 & H4 & H).
    apply step_over_app in H as (m5 & H5 & H).
    apply step_over_app in H as (m6 & H6 & H).
    apply den_cat. exists c. split; [by apply den_bnd|].
    apply den_cat. exists m1. split; [apply den_cc_prefix; eauto|].
    apply den_cat. exists m2. split; [apply den_rep_cls; eauto|].
    apply den_cat. exists m3. split; [apply den_rep_cls; eauto|].
    apply den_cat. exists m4. split; [apply den_rep_cls; eauto|].
    apply den_cat. exists m5. split; [apply den_rep_cls; eauto|].
    apply den_cat. exists m6. split; [apply den_rep_cls; eauto|].
    apply den_cat. exists c'. split; [apply den_rep_cls; eauto|].
    by apply den_bnd.
Qed.
End PatternShapes.

(** ** search: the leftmost position with a match *)

Section Search.
Variable r : regex.
Implicit Types (c s e : cursor) (pre post rest text : list ascii).

Lemma match_at_sound c e : match_at r c = Some e → den r c e.
Proof.
  unfold match_at. intros H.
  apply bt_sound in H as (c' & Hden & [= <-]). done.
Qed.

Lemma match_at_complete c e : den r c e → is_Some (match_at r c).
Proof. intros H. eapply bt_complete; [exact H|]. by eexists. Qed.

Lemma match_at_None c e : match_at r c = None → ¬ den r c e.
Proof.
  intros Hnone Hden. apply match_at_complete in Hden as [x Hx]. congruence.
Qed.

Lemma search_from_None rest : ∀ prev,
  search_from r prev rest = None →
  ∀ u v, rest = u ++ v → match_at r (Cursor (rev u ++ prev) v) = None.
Proof.
  induction rest as [|x rest IH]; intros prev; simpl.
  - destruct (match_at r (Cursor prev [])) eqn:E; [done|]. intros _ u v Huv.
    symmetry in Huv. apply app_eq_nil in Huv as [-> ->]. done.
  - destruct (match_at r (Cursor prev (x :: rest))) eqn:E; [done|].
    intros H [|y u] v Huv; simpl in Huv.
    + by subst.
    + injection Huv as -> ->. simpl. rewrite <- app_assoc. simpl.
      by eapply IH.
Qed.

Lemma search_from_Some rest : ∀ prev s e,
  search_from r prev rest = Some (s, e) →
  ∃ skipped rest',
    rest = skipped ++ rest'
    ∧ s = Cursor (rev skipped ++ prev) rest'
    ∧ match_at r s = Some e
    ∧ ∀ u v, skipped = u ++ v → v ≠ [] →
             match_at r (Cursor (rev u ++ prev) (v ++ rest')) = None.
Proof.
  induction rest as [|x rest IH]; intros prev s e; simpl.
  - destruct (match_at r (Cursor prev [])) eqn:E; [|done].
    intros [= <- <-]. exists [], []. repeat split; try done.
    intros u v Huv Hv. symmetry in Huv. apply app_eq_nil in Huv as [_ ->].
    done.
  - destruct (match_at r (Cursor prev (x :: rest))) eqn:E.
    + intros [= <- <-]. exists [], (x :: rest). repeat split; try done.
      intros u v Huv Hv. symmetry in Huv.
      apply app_eq_nil in Huv as [_ ->]. done.
    + intros H. apply IH in H as (skipped & rest' & -> & -> & Hm & Hleft).
      exists (x :: skipped), rest'. simpl. rewrite <- app_assoc. simpl.
      repeat split; try done.
      intros [|y u] v Huv Hv; simpl in Huv.
      * subst v. simpl. done.
      * injection Huv as -> ->. simpl. rewrite <- app_assoc. simpl.
        by apply Hleft.
Qed.

(** No match anywhere when [search] returns [None]. *)
Lemma search_None text :
  search r text = None →
  ∀ pre rest e, text = pre ++ rest → ¬ den r (Cursor (rev pre) rest) e.
Proof.
  unfold search. intros H pre rest e Htext.
  pose proof (search_from_None _ _ H pre rest Htext) as Hn.
  rewrite app_nil_r in Hn. by apply match_at_None.
Qed.

Lemma search_complete pre rest e :
  den r (Cursor (rev pre) rest) e → is_Some (search r (pre ++ rest)).
Proof.
  intros Hden. destruct (search r (pre ++ rest)) eqn:E; [by eexists|].
  exfalso. by eapply search_None.
Qed.

(** What [search] returns is a match, its [group0] is the text matched,
    and no match starts further left. *)
Lemma search_Some text s e :
  search r text = Some (s, e) →
  ∃ pre m post,
    text = pre ++ m ++ post
    ∧ s = Cursor (rev pre) (m ++ post)
    ∧ e = Cursor (rev m ++ rev pre) post
    ∧ den r s e
    ∧ group0 (s, e) = m
    ∧ ∀ pre' rest' e', text = pre' ++ rest' → length pre' < length pre →
                       ¬ den r (Cursor (rev pre') rest') e'.
Proof.
  unfold search. intros H.
  apply search_from_Some in H as (pre & rest' & -> & -> & Hm & Hleft).
  rewrite app_nil_r in *. apply match_at_sound in Hm.
  destruct (den_positions _ _ _ Hm) as [m [Ha Hb]]. simpl in Ha, Hb.
  exists pre, m, (after e). subst rest'.
  split; [done|]. split; [done|].
  split; [by apply cursor_eq|]. split; [done|]. split.
  - unfold group0. simpl. rewrite Hb, length_app, Nat.add_sub.
    rewrite length_rev. by rewrite take_app_length.
  - intros pre' rest'' e' Heq Hlen.
    apply app_eq_inv in Heq as [(k & Hk & Hrest)|(k & Hk & Hrest)].
    + subst pre rest''. apply match_at_None.
      specialize (Hleft pre' k eq_refl). rewrite app_nil_r in Hleft.
      apply Hleft. intros ->. rewrite app_nil_r in Hlen. lia.
    + subst pre'. rewrite length_app in Hlen. lia.
Qed.
End Search.

(** ** Tokens and candidates *)

Section Tokens.
Implicit Types (m w pre post text : list ascii) (p : ascii → bool).

Lemma ends_with_word_app w g :
  g ≠ [] → ends_with_word (w ++ g) = ends_with_word g.
Proof.
  intros Hg. unfold ends_with_word.
  destruct g as [|x g _] using rev_ind; [done|].
  by rewrite app_assoc, !last_snoc.
Qed.

Lemma ends_with_word_cons x g :
  g ≠ [] → ends_with_word (x :: g) = ends_with_word g.
Proof. apply (ends_with_word_app [x]). Qed.

Lemma ends_with_word_digits lo hi g :
  0 < lo → group class_d lo hi g = true → ends_with_word g = true.
Proof.
  intros Hlo Hg. pose proof (group_length _ _ _ _ Hg) as Hlen.
  apply group_forallb in Hg. unfold ends_with_word.
  destruct g as [|x g _] using rev_ind; [simpl in Hlen; lia|].
  rewrite last_snoc. rewrite forallb_app in Hg.
  apply andb_true_iff in Hg as [_ Hx]. simpl in Hx.
  rewrite andb_true_r in Hx. by apply digit09_word.
Qed.

Lemma group_nonempty p lo hi g : 0 < lo → group p lo hi g = true → g ≠ [].
Proof.
  intros Hlo Hg ->. apply group_length in Hg. simpl in Hg. lia.
Qed.

Lemma starts_with_word_digits lo hi g w :
  0 < lo → group class_d lo hi g = true → starts_with_word (g ++ w) = true.
Proof.
  intros Hlo Hg. pose proof (group_length _ _ _ _ Hg) as Hlen.
  apply group_forallb in Hg. destruct g as [|x g]; [simpl in Hlen; lia|].
  simpl in *. apply andb_true_iff in Hg as [Hx _]. by apply digit09_word.
Qed.

Lemma ssn_token_edges m :
  ssn_token m → starts_with_word m = true ∧ ends_with_word m = true.
Proof.
  intros (a & s1 & b & s2 & d & -> & Ha & _ & _ & _ & Hd). split.
  - eapply starts_with_word_digits; [|exact Ha]. lia.
  - assert (d ≠ []) as Hne by (eapply group_nonempty; [|exact Hd]; lia).
    rewrite ends_with_word_app by done.
    rewrite ends_with_word_cons by (by destruct b).
    rewrite ends_with_word_app by done.
    rewrite ends_with_word_cons by done.
    eapply ends_with_word_digits; [|exact Hd]. lia.
Qed.

Lemma cc_prefix4_starts (q : list ascii) w :
  cc_prefix4 q = true → starts_with_word (q ++ w) = true.
Proof.
  destruct q as [|x1 [|x2 [|x3 [|x4 [|? ?]]]]]; try done.
  cbn [cc_prefix4]. intros Hp.
  apply andb_true_iff in Hp as [Hp _]. apply andb_true_iff in Hp as [Hp _].
  apply andb_true_iff in Hp as [Hp _]. simpl.
  repeat (apply orb_true_iff in Hp as [Hp|Hp]);
    try (apply andb_true_iff in Hp as [Hp _]);
    apply is_char_eq in Hp; by subst.
Qed.

Lemma weak_cc_candidate_edges m :
  weak_cc_candidate m → starts_with_word m = true ∧ ends_with_word m = true.
Proof.
  intros (q & s1 & g1 & s2 & g2 & s3 & g3 & -> & Hq & _ & _ & _ & _ & _ & Hg3).
  split; [by apply cc_prefix4_starts|].
  assert (g3 ≠ []) as Hne by (eapply group_nonempty; [|exact Hg3]; lia).
  rewrite !app_assoc. rewrite ends_with_word_app by done.
  eapply ends_with_word_digits; [|exact Hg3]. lia.
Qed.

Lemma ssn_between pre m post :
  ssn_token m →
  den social_security_regex (Cursor (rev pre) (m ++ post))
                            (Cursor (rev m ++ rev pre) post)
  ↔ standalone pre post.
Proof.
  intros Hm. destruct (ssn_token_edges _ Hm) as [H1 H2].
  rewrite den_ssn, <- (boundaries_standalone pre m post H1 H2). split.
  - tauto.
  - intros [Hb Hb']. split; [done|]. split; [done|].
    exists m. split; [done|]. apply step_over_between.
Qed.

Lemma weak_cc_between pre m post :
  weak_cc_candidate m →
  den weak_credit_card_regex (Cursor (rev pre) (m ++ post))
                             (Cursor (rev m ++ rev pre) post)
  ↔ standalone pre post.
Proof.
  intros Hm. destruct (weak_cc_candidate_edges _ Hm) as [H1 H2].
  rewrite den_weak_cc, <- (boundaries_standalone pre m post H1 H2). split.
  - tauto.
  - intros [Hb Hb']. split; [done|]. split; [done|].
    exists m. split; [done|]. apply step_over_between.
Qed.

(** A match of the SSN pattern is a standalone token. *)
Lemma den_ssn_token pre m post :
  den social_security_regex (Cursor (rev pre) (m ++ post))
                            (Cursor (rev m ++ rev pre) post) →
  ssn_token m ∧ standalone pre post.
Proof.
  intros H. pose proof H as H'.
  apply den_ssn in H' as (_ & _ & m' & Hm' & Hs).
  apply step_over_unique in Hs as ->. split; [done|].
  by apply (ssn_between pre m post Hm').
Qed.

(** A match of the card pattern is a standalone candidate. *)
Lemma den_weak_cc_candidate pre m post :
  den weak_credit_card_regex (Cursor (rev pre) (m ++ post))
                             (Cursor (rev m ++ rev pre) post) →
  weak_cc_candidate m ∧ standalone pre post.
Proof.
  intros H. pose proof H as H'.
  apply den_weak_cc in H' as (_ & _ & m' & Hm' & Hs).
  apply step_over_unique in Hs as ->. split; [done|].
  by apply (weak_cc_between pre m post Hm').
Qed.

Lemma ssn_detector_contains text : ssn_detector text = true ↔ contains_ssn text.
Proof.
  unfold ssn_detector. rewrite bool_decide_eq_true. split.
  - intros [[s e] Hs].
    apply search_Some in Hs as (pre & m & post & -> & -> & -> & Hden & _).
    apply den_ssn_token in Hden as [Hm Hst]. by exists pre, m, post.
  - intros (pre & m & post & -> & Hm & Hst).
    eapply search_complete. by apply (ssn_between pre m post Hm).
Qed.
End Tokens.

(** ** The credit card branch *)

Section CreditCard.
Implicit Types (m w pre post text : list ascii).

Lemma remove_char_absent x w : x ∉ w → remove_char x w = w.
Proof.
  unfold remove_char. induction w as [|c w IH]; [done|].
  intros Hx. apply not_elem_of_cons in Hx as [Hne Hx].
  rewrite filter_cons_True by done. by rewrite IH.
Qed.

(** The two guarded [replace] calls remove every hyphen and space. *)
Lemma sanitize_strip m : sanitize m = strip_separators m.
Proof.
  unfold sanitize, strip_separators.
  assert ((if bool_decide ("-"%char ∈ m) then remove_char "-" m else m)
          = remove_char "-" m) as ->.
  { case_bool_decide; [done|]. by rewrite remove_char_absent. }
  case_bool_decide; [done|]. by rewrite (remove_char_absent " ").
Qed.

Lemma class_d_not_sep c : class_d c = true → c ≠ "-"%char ∧ c ≠ " "%char.
Proof.
  unfold class_d, digit09, in_range. intros H.
  apply andb_true_iff in H as [H _]. apply Nat.leb_le in H.
  split; intros ->; vm_compute in H; lia.
Qed.

Lemma cc_sep_cases c : cc_sep c = true → c = "-"%char ∨ c = " "%char.
Proof.
  unfold cc_sep. intros H.
  apply orb_true_iff in H as [H|H]; apply is_char_eq in H; auto.
Qed.

Lemma strip_app w1 w2 :
  strip_separators (w1 ++ w2) = strip_separators w1 ++ strip_separators w2.
Proof. unfold strip_separators, remove_char. by rewrite !filter_app. Qed.

Lemma strip_digits w : forallb class_d w = true → strip_separators w = w.
Proof.
  unfold strip_separators. induction w as [|c w IH]; [done|].
  simpl. intros H. apply andb_true_iff in H as [Hc Hw].
  destruct (class_d_not_sep _ Hc) as [H1 H2].
  unfold remove_char in *. rewrite filter_cons_True by done.
  rewrite filter_cons_True by done. by rewrite IH.
Qed.

Lemma strip_seps w : forallb cc_sep w = true → strip_separators w = [].
Proof.
  unfold strip_separators, remove_char. induction w as [|c w IH]; [done|].
  simpl. intros H. apply andb_true_iff in H as [Hc Hw].
  destruct (cc_sep_cases _ Hc) as [->| ->].
  - rewrite filter_cons_False by (intros ?; done). by apply IH.
  - rewrite filter_cons_True by done.
    rewrite filter_cons_False by (intros ?; done). by apply IH.
Qed.

Lemma cc_prefix4_digits q :
  cc_prefix4 q = true → forallb class_d q = true ∧ length q = 4.
Proof.
  destruct q as [|x1 [|x2 [|x3 [|x4 [|? ?]]]]]; try done.
  cbn [cc_prefix4]. intros Hp.
  apply andb_true_iff in Hp as [Hp H4]. apply andb_true_iff in Hp as [Hp H3].
  apply andb_true_iff in Hp as [Hp H2]. split; [|done].
  cbn [forallb]. rewrite H2, H3, H4.
  repeat (apply orb_true_iff in Hp as [Hp|Hp]);
    try (apply andb_true_iff in Hp as [Hp _]);
    apply is_char_eq in Hp; by subst.
Qed.

(** Stripped of its separators, a candidate of the pattern is its prefix
    followed by its three digit groups. *)
Lemma strip_candidate q s1 g1 s2 g2 s3 g3 :
  cc_prefix4 q = true →
  opt_sep s1 = true → group class_d 3 4 g1 = true →
  opt_sep s2 = true → group class_d 3 4 g2 = true →
  opt_sep s3 = true → group class_d 3 5 g3 = true →
  strip_separators (q ++ s1 ++ g1 ++ s2 ++ g2 ++ s3 ++ g3)
  = q ++ g1 ++ g2 ++ g3.
Proof.
  intros Hq Hs1 Hg1 Hs2 Hg2 Hs3 Hg3. rewrite !strip_app.
  apply cc_prefix4_digits in Hq as [Hq _].
  rewrite (strip_digits q Hq).
  rewrite (strip_digits g1), (strip_digits g2), (strip_digits g3)
    by (eapply group_forallb; eassumption).
  rewrite (strip_seps s1), (strip_seps s2), (strip_seps s3)
    by (eapply group_forallb; eassumption).
  done.
Qed.

Lemma candidate_stripped m :
  weak_cc_candidate m →
  forallb class_d (strip_separators m) = true
  ∧ 13 ≤ length (strip_separators m) ≤ 17.
Proof.
  intros (q & s1 & g1 & s2 & g2 & s3 & g3 & -> & Hq
          & Hs1 & Hg1 & Hs2 & Hg2 & Hs3 & Hg3).
  rewrite strip_candidate by done.
  pose proof (cc_prefix4_digits _ Hq) as [Hqd Hqlen].
  pose proof (group_length _ _ _ _ Hg1). pose proof (group_length _ _ _ _ Hg2).
  pose proof (group_length _ _ _ _ Hg3).
  apply group_forallb in Hg1, Hg2, Hg3. split.
  - rewrite !forallb_app. by rewrite Hqd, Hg1, Hg2, Hg3.
  - rewrite !length_app. lia.
Qed.

Lemma cc_search_Some text s e :
  search weak_credit_card_regex text = Some (s, e) →
  ∃ pre m post,
    cc_occurrence text pre m post ∧ leftmost_start text pre
    ∧ group0 (s, e) = m.
Proof.
  intros H.
  apply search_Some in H as (pre & m & post & -> & -> & -> & Hden & Hg & Hl).
  apply den_weak_cc_candidate in Hden as [Hm Hst].
  exists pre, m, post. split; [done|]. split; [|done].
  intros pre' m' post' (Heq & Hm' & Hst').
  destruct (decide (length pre ≤ length pre')) as [|Hlt]; [done|].
  exfalso. eapply (Hl pre' (m' ++ post')); [done|lia|].
  by apply (weak_cc_between pre' m' post' Hm').
Qed.

Lemma cc_search_None text :
  search weak_credit_card_regex text = None →
  ∀ pre m post, ¬ cc_occurrence text pre m post.
Proof.
  intros H pre m post (Heq & Hm & Hst).
  eapply (search_None _ _ H pre (m ++ post)); [done|].
  by apply (weak_cc_between pre m post Hm).
Qed.

Lemma cc_occurrence_search text pre m post :
  cc_occurrence text pre m post →
  is_Some (search weak_credit_card_regex text).
Proof.
  intros (-> & Hm & Hst). eapply search_complete.
  by apply (weak_cc_between pre m post Hm).
Qed.

(** The detector answers with the checksum of the candidate that [search]
    returns: a standalone candidate at the leftmost start. *)
Lemma cc_detector_first text b :
  cc_detector text = Ok b →
  b = false ∧ (∀ pre m post, ¬ cc_occurrence text pre m post)
  ∨ ∃ pre m post,
      cc_occurrence text pre m post ∧ leftmost_start text pre
      ∧ luhn_checksum (strip_separators m) = Ok b.
Proof.
  unfold cc_detector.
  destruct (search weak_credit_card_regex text) as [[s e]|] eqn:Hs.
  - apply cc_search_Some in Hs as (pre & m & post & Hocc & Hl & ->).
    rewrite sanitize_strip. intros Hb. right. by exists pre, m, post.
  - intros [= <-]. left. split; [done|]. by apply cc_search_None.
Qed.

(** The checksum step never raises on what the pattern matched. *)
Lemma cc_detector_total text : ∃ b, cc_detector text = Ok b.
Proof.
  unfold cc_detector.
  destruct (search weak_credit_card_regex text) as [[s e]|] eqn:Hs; [|eauto].
  apply cc_search_Some in Hs as (pre & m & post & (_ & Hm & _) & _ & ->).
  rewrite sanitize_strip. apply luhn_checksum_digits.
  by apply candidate_stripped.
Qed.
End CreditCard.

(** ** content_scan *)

Section ContentScan.
Variable from_file : string → exc parse_result.
Implicit Types (file_path : string) (r : parse_result).

Lemma content_scan_Raise file_path e :
  from_file file_path = Raise e →
  content_scan from_file file_path = Ok ("NA", Some []).
Proof. unfold content_scan. by intros ->. Qed.

Lemma content_scan_Ok file_path r :
  from_file file_path = Ok r →
  content_scan from_file file_path
  = Ok (if truthy (content r)
        then if bool_decide (status r = Some 200) then "Y"
             else if bool_decide (status r = Some 204) then "N" else "NA"
        else "N",
        content r).
Proof.
  unfold content_scan. intros ->. simpl.
  destruct (truthy (content r)); simpl; [|done].
  by repeat case_bool_decide.
Qed.

Lemma content_scan_total file_path :
  ∃ parse_status parsed_content,
    content_scan from_file file_path = Ok (parse_status, parsed_content).
Proof.
  destruct (from_file file_path) as [r|e] eqn:E.
  - rewrite (content_scan_Ok _ _ E). eauto.
  - rewrite (content_scan_Raise _ _ E). eauto.
Qed.

Lemma content_scan_Y file_path parsed_content :
  content_scan from_file file_path = Ok ("Y", parsed_content) →
  ∃ r x text, from_file file_path = Ok r ∧ status r = Some 200
              ∧ parsed_content = Some (x :: text) ∧ content r = Some (x :: text).
Proof.
  destruct (from_file file_path) as [r|e] eqn:E.
  - rewrite (content_scan_Ok _ _ E).
    destruct (content r) as [[|x text]|] eqn:Hc; simpl; try done.
    repeat case_bool_decide; try done. intros [= <-]. eauto 8.
  - by rewrite (content_scan_Raise _ _ E).
Qed.
End ContentScan.

(** ** The loop of main_file_scan_interface *)

Section Orchestrator.
Variable from_file : string → exc parse_result.
Implicit Types (p q : string) (d : gmap string file_info)
  (rep : gmap string report_entry) (l files : list string).

(** One turn of the loop on a file not seen before: its entry becomes its
    terminal findings, and it is reported when a flag is set. *)
Lemma loop_body_fresh d rep p :
  d !! p = Some fresh_info →
  loop_body from_file (d, rep) p
  = Ok (<[p := findings from_file p]> d,
        if flagged (findings from_file p)
        then <[p := entry_of (findings from_file p)]> rep else rep).
Proof.
  intros Hd. unfold loop_body, loop_turn, findings.
  destruct (content_scan_total from_file p) as (st & c & Hcs).
  rewrite Hcs. simpl. rewrite Hd. simpl.
  case_bool_decide as HY.
  - subst st. apply content_scan_Y in Hcs as (r & x & text & _ & _ & -> & _).
    simpl. destruct (cc_detector_total (x :: text)) as [b Hb]. rewrite Hb.
    destruct (ssn_detector (x :: text)), b; reflexivity.
  - simpl. destruct c; reflexivity.
Qed.

Lemma loop_result l : ∀ d rep,
  NoDup l →
  (∀ p, p ∈ l → d !! p = Some fresh_info ∧ rep !! p = None) →
  ∃ d' rep',
    exc_foldl (loop_body from_file) (d, rep) l = Ok (d', rep')
    ∧ (∀ p, d' !! p = if decide (p ∈ l) then Some (findings from_file p)
                      else d !! p)
    ∧ (∀ p, rep' !! p = if decide (p ∈ l)
                        then if flagged (findings from_file p)
                             then Some (entry_of (findings from_file p))
                             else None
                        else rep !! p).
Proof.
  induction l as [|x l IH]; intros d rep Hnd Hfresh.
  - exists d, rep. split; [done|].
    split; intros p; by rewrite decide_False by apply not_elem_of_nil.
  - apply NoDup_cons in Hnd as [Hx Hnd]. cbn [exc_foldl].
    destruct (Hfresh x (list_elem_of_here _ _)) as [Hdx Hrx].
    rewrite loop_body_fresh by done. simpl.
    edestruct (IH (<[x := findings from_file x]> d)) as (d' & rep' & -> & Hd' & Hrep');
      [done| |].
    { intros p Hp. assert (p ≠ x) as Hne by (intros ->; done).
      destruct (Hfresh p (list_elem_of_further _ _ _ Hp)) as [Hdp Hrp].
      rewrite lookup_insert_ne by done. split; [done|].
      destruct (flagged (findings from_file x)); [|done].
      by rewrite lookup_insert_ne. }
    exists d', rep'. split; [done|]. split; intros p.
    + rewrite Hd'. destruct (decide (p = x)) as [->|Hne].
      * rewrite decide_False by done.
        rewrite decide_True by apply list_elem_of_here.
        by rewrite lookup_insert_eq.
      * destruct (decide (p ∈ l)).
        -- by rewrite decide_True by by apply list_elem_of_further.
        -- rewrite decide_False by (by apply not_elem_of_cons).
           by rewrite lookup_insert_ne.
    + rewrite Hrep'. destruct (decide (p = x)) as [->|Hne].
      * rewrite decide_False by done.
        rewrite decide_True by apply list_elem_of_here.
        destruct (flagged (findings from_file x)); [|done].
        by rewrite lookup_insert_eq.
      * destruct (decide (p ∈ l)).
        -- by rewrite decide_True by by apply list_elem_of_further.
        -- rewrite decide_False by (by apply not_elem_of_cons).
           destruct (flagged (findings from_file x)); [|done].
           by rewrite lookup_insert_ne.
Qed.

Lemma initial_dict_lookup files p :
  initial_dict files !! p
  = if decide (p ∈ files) then Some fresh_info else None.
Proof.
  unfold initial_dict. induction files as [|x files IH].
  - by rewrite decide_False by apply not_elem_of_nil.
  - rewrite fmap_cons, list_to_map_cons.
    destruct (decide (p = x)) as [->|Hne].
    + rewrite lookup_insert_eq.
      by rewrite decide_True by apply list_elem_of_here.
    + rewrite lookup_insert_ne by done. rewrite IH.
      destruct (decide (p ∈ files)).
      * by rewrite decide_True by by apply list_elem_of_further.
      * by rewrite decide_False by (by apply not_elem_of_cons).
Qed.

Lemma initial_dict_empty files : initial_dict files = ∅ ↔ files = [].
Proof.
  split; [|by intros ->].
  destruct files as [|x files]; [done|]. intros H.
  pose proof (initial_dict_lookup (x :: files) x) as Hl.
  rewrite H, lookup_empty in Hl.
  by rewrite decide_True in Hl by apply list_elem_of_here.
Qed.

(** The state after the loop, for any run of [as_completed]: the files
    handed over carry their findings, the others are as initialised. *)
Lemma loop_closed walk run :
  run_of walk run →
  ∃ infos report,
    exc_foldl (loop_body from_file)
              (initial_dict (scan_directory_for_files walk), ∅)
              (handed_over run) = Ok (infos, report)
    ∧ (∀ p, infos !! p
            = if decide (p ∈ handed_over run)
              then Some (findings from_file p)
              else if decide (p ∈ scan_directory_for_files walk)
                   then Some fresh_info else None)
    ∧ (∀ p, report !! p
            = if decide (p ∈ handed_over run)
              then if flagged (findings from_file p)
                   then Some (entry_of (findings from_file p)) else None
              else None).
Proof.
  intros (Hnd & Hsub & _).
  destruct (loop_result (handed_over run)
              (initial_dict (scan_directory_for_files walk)) ∅ Hnd)
    as (infos & report & Hrun & Hinfos & Hreport).
  - intros p Hp. rewrite initial_dict_lookup.
    rewrite decide_True by by apply Hsub. by rewrite lookup_empty.
  - exists infos, report. split; [done|]. split; intros p.
    + by rewrite Hinfos, initial_dict_lookup.
    + by rewrite Hreport, lookup_empty.
Qed.

(** A run in which every future is handed over returns, and its result
    is determined by the files and the answers of the service. *)
Lemma scan_run_complete walk run :
  run_of walk run → budget_elapsed run = false →
  ∃ infos report,
    scan_run from_file walk run = Ok (infos, report)
    ∧ (∀ p, infos !! p
            = if decide (p ∈ scan_directory_for_files walk)
              then Some (findings from_file p) else None)
    ∧ (∀ p, report !! p
            = if decide (p ∈ scan_directory_for_files walk)
              then if flagged (findings from_file p)
                   then Some (entry_of (findings from_file p)) else None
              else None).
Proof.
  intros Hrun Hb. unfold scan_run. case_bool_decide as Hne.
  - destruct (loop_closed walk run Hrun) as (infos & report & -> & Hi & Hr).
    destruct Hrun as (_ & Hsub & Hall). rewrite Hb in *. simpl.
    exists infos, report. split; [done|]. split; intros p.
    + rewrite Hi. destruct (decide (p ∈ handed_over run)) as [Hp|Hp].
      * by rewrite decide_True by by apply Hsub.
      * destruct (decide (p ∈ scan_directory_for_files walk)) as [Hp'|]; [|done].
        exfalso. by apply Hp, Hall.
    + rewrite Hr. destruct (decide (p ∈ handed_over run)) as [Hp|Hp].
      * by rewrite decide_True by by apply Hsub.
      * destruct (decide (p ∈ scan_directory_for_files walk)) as [Hp'|]; [|done].
        exfalso. by apply Hp, Hall.
  - assert (scan_directory_for_files walk = []) as Hnil.
    { apply initial_dict_empty. by destruct (decide (initial_dict (scan_directory_for_files walk) = ∅)). }
    rewrite Hnil. exists ∅, ∅. split; [done|].
    split; intros p; rewrite lookup_empty;
      by rewrite decide_False by apply not_elem_of_nil.
Qed.

(** When the budget runs out the function raises and returns nothing. *)
Lemma scan_run_timeout walk run :
  run_of walk run → budget_elapsed run = true →
  scan_run from_file walk run = Raise TimeoutError.
Proof.
  intros Hrun Hb. unfold scan_run.
  destruct (loop_closed walk run Hrun) as (infos & report & -> & _).
  destruct Hrun as (_ & _ & Hpending). rewrite Hb in *. simpl.
  case_bool_decide as Hne; [done|]. exfalso. apply Hpending.
  assert (scan_directory_for_files walk = []) as ->; [|by intros x Hx; inversion Hx].
  apply initial_dict_empty.
  by destruct (decide (initial_dict (scan_directory_for_files walk) = ∅)).
Qed.
End Orchestrator.

(** * The claims *)

Section DetectorClaims.
Implicit Types (text m pre post : list ascii).

(** C2: [luhn_checksum] computes exactly the checksum of the
    specification: from the rightmost digit, every second digit is doubled
    and replaced by its digit sum when the double exceeds 9, the other
    digits are added as they are, and the result is valid when the total is
    0 modulo 10 (the function raises where [int] raises); so
    4111111111111111 is valid and 4111111111111112 is not. *)
Theorem luhn_checksum_refines_spec :
  (∀ s, luhn_checksum s = (ds ← digits_of s ; Ok (luhn_spec ds)))
  ∧ luhn_checksum (txt "4111111111111111") = Ok true
  ∧ luhn_checksum (txt "4111111111111112") = Ok false.
Proof.
  split; [apply luhn_checksum_spec|]. split; vm_compute; reflexivity.
Qed.

(** C10: [luhn_checksum] has no length or prefix precondition: it
    answers for every digit string, and it answers [True] for the empty
    string and for every string made of zeros only. *)
Theorem luhn_checksum_accepts_zeros :
  luhn_checksum [] = Ok true
  ∧ (∀ n, luhn_checksum (replicate n "0"%char) = Ok true)
  ∧ (∀ s, forallb class_d s = true → ∃ b, luhn_checksum s = Ok b).
Proof.
  split; [vm_compute; reflexivity|]. split; [|apply luhn_checksum_digits].
  intros n. rewrite luhn_checksum_spec, digits_of_zeros. simpl.
  unfold luhn_spec. rewrite luhn_total_zeros; [done|].
  apply List.Forall_rev, Forall_forall. intros d Hd.
  by apply elem_of_replicate in Hd as [-> _].
Qed.

(** C3: the SSN detector reports found exactly when the text contains
    three digits, a separator among hyphen, period and space, two digits,
    a separator of that class and four digits, standing alone: no letter,
    digit or underscore touches the token, so it is not part of a longer
    digit run.  Without such a token it reports not found. *)
Theorem ssn_detector_iff_standalone_token text :
  (ssn_detector text = true ↔ contains_ssn text)
  ∧ (ssn_detector text = false ↔ ¬ contains_ssn text).
Proof.
  pose proof (ssn_detector_contains text) as H. split; [done|].
  destruct (ssn_detector text); split; try done.
  - intros Hn. exfalso. apply Hn. by apply H.
  - intros _ Hc. by apply H in Hc.
Qed.

(** C1, as amended: the detector always answers; it reports found only
    if the text contains a standalone candidate of the pattern (13 to 17
    digits once stripped) that starts at the leftmost position where a
    candidate starts and passes the Luhn checksum; it reports found when
    the text has a candidate and every candidate starting at that leftmost
    position passes; and it reports not found when every candidate
    starting there fails, hence when all candidates of the text fail. *)
Theorem cc_detector_validates_first_candidate text :
  (∃ b, cc_detector text = Ok b)
  ∧ (cc_detector text = Ok true →
     ∃ pre m post,
       cc_occurrence text pre m post ∧ leftmost_start text pre
       ∧ luhn_checksum (strip_separators m) = Ok true
       ∧ 13 ≤ length (strip_separators m) ≤ 17)
  ∧ ((∃ pre m post, cc_occurrence text pre m post) →
     (∀ pre m post, cc_occurrence text pre m post → leftmost_start text pre →
                    luhn_checksum (strip_separators m) = Ok true) →
     cc_detector text = Ok true)
  ∧ ((∀ pre m post, cc_occurrence text pre m post → leftmost_start text pre →
                    luhn_checksum (strip_separators m) = Ok false) →
     cc_detector text = Ok false)
  ∧ ((∀ pre m post, cc_occurrence text pre m post →
                    luhn_checksum (strip_separators m) = Ok false) →
     cc_detector text = Ok false).
Proof.
  destruct (cc_detector_total text) as [b Hb].
  pose proof (cc_detector_first text b Hb) as Hfirst.
  split; [eauto|]. split; [|split; [|split]].
  - rewrite Hb. intros [= ->].
    destruct Hfirst as [[? _]|(pre & m & post & Hocc & Hl & Hluhn)]; [done|].
    destruct (candidate_stripped m) as [_ Hlen];
      [by destruct Hocc as (_ & ? & _)|].
    exists pre, m, post. split; [done|]. split; [done|]. by split.
  - intros (pre0 & m0 & post0 & Hocc0) Hall.
    destruct Hfirst as [[_ Hno]|(pre & m & post & Hocc & Hl & Hluhn)].
    + by destruct (Hno pre0 m0 post0).
    + rewrite (Hall _ _ _ Hocc Hl) in Hluhn. by injection Hluhn as <-.
  - intros Hall.
    destruct Hfirst as [[-> _]|(pre & m & post & Hocc & Hl & Hluhn)]; [done|].
    rewrite (Hall _ _ _ Hocc Hl) in Hluhn. by injection Hluhn as <-.
  - intros Hall.
    destruct Hfirst as [[-> _]|(pre & m & post & Hocc & Hl & Hluhn)]; [done|].
    rewrite (Hall _ _ _ Hocc) in Hluhn. by injection Hluhn as <-.
Qed.

(** C1, as stated, fails: [two_cards] contains a standalone 16-digit
    number with prefix 4 and a valid checksum, yet the detector reports
    not found, because the number before it fails the checksum. *)
Lemma cc_detector_misses_later_valid_card :
  spec_contains_valid_card two_cards
  ∧ cc_detector two_cards = Ok false
  ∧ ¬ (∀ text, cc_detector text = Ok true ↔ spec_contains_valid_card text).
Proof.
  assert (spec_contains_valid_card two_cards) as Hspec.
  { exists (txt "4111111111111112 "), (txt "4111111111111111"), [].
    split; [vm_compute; reflexivity|].
    split; [split; vm_compute; reflexivity|].
    split; vm_compute; reflexivity. }
  assert (cc_detector two_cards = Ok false) as Hcc by (vm_compute; reflexivity).
  split; [done|]. split; [done|].
  intros Hall. apply Hall in Hspec. rewrite Hcc in Hspec. discriminate Hspec.
Qed.

(** C9: only the match that [search] returns, the leftmost one, is
    checked: when it fails the Luhn checksum the detector reports not
    found and [credit_card_found] stays false, whatever follows in the
    text.  That match is a standalone candidate of the pattern and no
    candidate starts further left. *)
Theorem only_first_match_is_validated text s e :
  search weak_credit_card_regex text = Some (s, e) →
  luhn_checksum (sanitize (group0 (s, e))) = Ok false →
  cc_detector text = Ok false
  ∧ (∀ i, credit_card_found i = false →
          ∃ i' flag, detect i (Some text) = Ok (i', flag)
                     ∧ credit_card_found i' = false)
  ∧ ∃ pre post,
      cc_occurrence text pre (group0 (s, e)) post ∧ leftmost_start text pre.
Proof.
  intros Hs Hluhn.
  assert (cc_detector text = Ok false) as Hcc.
  { unfold cc_detector. by rewrite Hs. }
  split; [done|]. split.
  - intros i Hi. unfold detect. rewrite Hcc. simpl.
    destruct (ssn_detector text); simpl; eauto.
  - apply cc_search_Some in Hs as (pre & m & post & Hocc & Hl & ->). eauto.
Qed.

Lemma only_first_match_is_validated_witness :
  let s := Cursor [] two_cards in
  let e := Cursor (rev (txt "4111111111111112")) (txt " 4111111111111111") in
  spec_contains_valid_card two_cards
  ∧ cc_detector two_cards = Ok false
    ∧ (∀ i, credit_card_found i = false →
            ∃ i' flag, detect i (Some two_cards) = Ok (i', flag)
                       ∧ credit_card_found i' = false)
    ∧ ∃ pre post,
        cc_occurrence two_cards pre (group0 (s, e)) post
        ∧ leftmost_start two_cards pre.
Proof.
  intros s e. split.
  - exists (txt "4111111111111112 "), (txt "4111111111111111"), [].
    split; [vm_compute; reflexivity|].
    split; [split; vm_compute; reflexivity|].
    split; vm_compute; reflexivity.
  - apply (only_first_match_is_validated two_cards s e);
      vm_compute; reflexivity.
Defined.
End DetectorClaims.

Section ExtractionClaims.
Implicit Types (from_file : string → exc parse_result) (file_path : string).

(** C4: [content_scan] gives the three outcomes of the specification
    (Extracted for status 200 with text, NoContent for status 204 or no
    text, Failed for any other status or an exception, never raising) on
    every answer of the service except one kind: for a status other than 200
    and 204 without text it returns "N", where the specification and the
    comment of the status branch ask for "NA". *)
Theorem content_scan_masks_failed_status from_file file_path :
  (failed_without_text (from_file file_path) →
   spec_failed (from_file file_path)
   ∧ (∃ parsed_content,
        content_scan from_file file_path = Ok ("N", parsed_content))
   ∧ ¬ content_scan_as_specified from_file file_path)
  ∧ (¬ failed_without_text (from_file file_path) →
     content_scan_as_specified from_file file_path).
Proof.
  unfold content_scan_as_specified, failed_without_text, spec_extracted,
    spec_no_content, spec_failed.
  destruct (from_file file_path) as [r|e] eqn:E.
  - rewrite (content_scan_Ok _ _ _ E). split.
    + intros (r' & [= <-] & H200 & H204 & Ht). rewrite Ht.
      split; [right; by exists r|]. split; [by eexists|].
      intros (st & c & [= <- <-] & _ & _ & HNA).
      assert ("N" = "NA") as Habs; [|done].
      apply HNA. right. by exists r.
    + intros Hnot. eexists _, _. split; [done|].
      destruct (truthy (content r)) eqn:Ht;
        [case_bool_decide as H200; [|case_bool_decide as H204]|].
      * split; [|split]; split; try done.
        -- intros _. by exists r.
        -- intros (r' & [= <-] & [H|[_ H]]); congruence.
        -- intros [[e [=]]|(r' & [= <-] & H & _)]. done.
      * split; [|split]; split; try done.
        -- intros (r' & [= <-] & H & _). done.
        -- intros _. exists r. auto.
        -- intros [[e [=]]|(r' & [= <-] & _ & H)]. done.
      * split; [|split]; split; try done.
        -- intros (r' & [= <-] & H & _). done.
        -- intros (r' & [= <-] & [H|[H _]]); congruence.
        -- intros _. right. by exists r.
      * destruct (decide (status r = Some 200)) as [H200|H200];
          [|destruct (decide (status r = Some 204)) as [H204|H204]].
        -- split; [|split]; split; try done.
           ++ intros (r' & [= <-] & _ & H). congruence.
           ++ intros _. exists r. auto.
           ++ intros [[e [=]]|(r' & [= <-] & H & _)]. done.
        -- split; [|split]; split; try done.
           ++ intros (r' & [= <-] & _ & H). congruence.
           ++ intros _. exists r. auto.
           ++ intros [[e [=]]|(r' & [= <-] & _ & H)]. done.
        -- exfalso. apply Hnot. by exists r.
  - rewrite (content_scan_Raise _ _ _ E). split.
    + by intros (r & [=] & _).
    + intros _. eexists _, _. split; [done|].
      split; [|split]; split; try done.
      * intros (r & [=] & _).
      * intros (r & [=] & _).
      * intros _. left. by exists e.
Qed.

Lemma content_scan_masks_failed_status_witness :
  let from_file := λ _ : string, Ok (ParseResult (Some 500) None) in
  failed_without_text (from_file "report.pdf")
  ∧ spec_failed (from_file "report.pdf")
    ∧ (∃ parsed_content,
         content_scan from_file "report.pdf" = Ok ("N", parsed_content))
    ∧ ¬ content_scan_as_specified from_file "report.pdf".
Proof.
  intros from_file.
  assert (failed_without_text (from_file "report.pdf")) as Hf.
  { exists (ParseResult (Some 500) None).
    split; [reflexivity|]. split; [intros [=]|]. split; [intros [=]|reflexivity]. }
  split; [exact Hf|].
  exact (proj1 (content_scan_masks_failed_status from_file "report.pdf") Hf).
Defined.
End ExtractionClaims.

Section OrchestratorClaims.
Implicit Types (from_file : string → exc parse_result)
  (walk : list walk_entry) (run : completion) (p q : string).



Lemma findings_flagged from_file p :
  flagged (findings from_file p) = true →
  scanned (findings from_file p) = "Y".
Proof.
  unfold findings.
  destruct (content_scan from_file p) as [[st [text|]]|]; try done.
  case_bool_decide; [by subst|done].
Qed.

Lemma main_of_scan_run from_file walk run infos report :
  scan_run from_file walk run = Ok (infos, report) →
  main_file_scan_interface from_file walk run = Ok report.
Proof. unfold main_file_scan_interface. by intros ->. Qed.

(** C5: when the budget runs out while futures are pending,
    [main_file_scan_interface] does not return the report of the completed
    files: the [TimeoutError] of [as_completed] leaves the function. *)
Theorem scan_times_out_with_exception from_file walk run :
  run_of walk run → budget_elapsed run = true →
  main_file_scan_interface from_file walk run = Raise TimeoutError.
Proof.
  intros Hrun Hb. unfold main_file_scan_interface.
  by rewrite scan_run_timeout.
Qed.

Lemma scan_times_out_with_exception_witness :
  let run := Completion ["docs/a.txt"] true in
  run_of scenario_walk run
  ∧ main_file_scan_interface scenario_service scenario_walk run
    = Raise TimeoutError.
Proof.
  intros run.
  assert (run_of scenario_walk run) as Hrun.
  { split; [|split]; apply (bool_decide_unpack _); vm_compute; exact I. }
  split; [done|].
  apply (scan_times_out_with_exception scenario_service scenario_walk run Hrun).
  reflexivity.
Defined.



(** C7: after a run in which every future is handed over, a path is a
    key of the report exactly when its final entry of [file_paths_dict]
    has a flag set; a file whose status is not "Y" (failed extraction or
    no content) or that has no flag is absent; and every entry gives
    "Yes" or "No" for each category, according to the flags. *)
Theorem report_holds_exactly_flagged_files from_file walk run :
  run_of walk run → budget_elapsed run = false →
  ∃ infos report,
    scan_run from_file walk run = Ok (infos, report)
    ∧ main_file_scan_interface from_file walk run = Ok report
    ∧ (∀ p, p ∈ dom report
            ↔ ∃ i, infos !! p = Some i
                   ∧ (social_security_found i || credit_card_found i) = true)
    ∧ (∀ p i, infos !! p = Some i → scanned i ≠ "Y" → report !! p = None)
    ∧ (∀ p entry, report !! p = Some entry →
         ∃ i, infos !! p = Some i
              ∧ report_credit_card_found entry
                = (if credit_card_found i then "Yes" else "No")
              ∧ report_social_security_found entry
                = (if social_security_found i then "Yes" else "No")).
Proof.
  intros Hrun Hb.
  destruct (scan_run_complete from_file walk run Hrun Hb)
    as (infos & report & Hscan & Hi & Hr).
  exists infos, report. split; [done|].
  split; [by eapply main_of_scan_run|]. split; [|split].
  - intros p. rewrite elem_of_dom, Hi, Hr.
    destruct (decide (p ∈ scan_directory_for_files walk)).
    + fold (flagged (findings from_file p)).
      destruct (flagged (findings from_file p)) eqn:Hf; split.
      * intros _. by exists (findings from_file p).
      * intros _. by eexists.
      * by intros [? ?].
      * intros (i & [= <-] & Hflag). unfold flagged in Hf. congruence.
    + split; [by intros [? ?]|by intros (i & ? & _)].
  - intros p i. rewrite Hi, Hr.
    destruct (decide (p ∈ scan_directory_for_files walk)); [|done].
    intros [= <-] HY.
    destruct (flagged (findings from_file p)) eqn:Hf; [|done].
    by apply findings_flagged in Hf.
  - intros p entry. rewrite Hi, Hr.
    destruct (decide (p ∈ scan_directory_for_files walk)); [|done].
    destruct (flagged (findings from_file p)); [|done].
    intros [= <-]. by exists (findings from_file p).
Qed.

Lemma report_holds_exactly_flagged_files_witness :
  let run := Completion ["docs/b.txt"; "docs/c.txt"; "docs/a.txt"] false in
  run_of scenario_walk run
  ∧ ∃ infos report,
      scan_run scenario_service scenario_walk run = Ok (infos, report)
      ∧ main_file_scan_interface scenario_service scenario_walk run
        = Ok report
      ∧ (∀ p, p ∈ dom report
              ↔ ∃ i, infos !! p = Some i
                     ∧ (social_security_found i || credit_card_found i) = true)
      ∧ report = {[ "docs/a.txt" := ReportEntry "No" "Yes" ]}.
Proof.
  intros run.
  assert (run_of scenario_walk run) as Hrun.
  { split; [|split]; apply (bool_decide_unpack _); vm_compute; exact I. }
  split; [done|].
  destruct (report_holds_exactly_flagged_files scenario_service
              scenario_walk run Hrun eq_refl)
    as (infos & report & Hscan & Hmain & Hdom & _).
  exists infos, report. split; [done|]. split; [done|]. split; [done|].
  assert (main_file_scan_interface scenario_service scenario_walk run
          = Ok {[ "docs/a.txt" := ReportEntry "No" "Yes" ]}) as Hval.
  { vm_compute. reflexivity. }
  rewrite Hmain in Hval. by injection Hval.
Defined.

(** C8, as amended: two runs over the same files, with the same answers
    of the service and every future handed over within the budget in both,
    return the same report, in whatever order the walk lists the files and
    the futures complete. *)
Theorem report_independent_of_order from_file walk1 walk2 run1 run2 :
  scan_directory_for_files walk1 ≡ₚ scan_directory_for_files walk2 →
  run_of walk1 run1 → budget_elapsed run1 = false →
  run_of walk2 run2 → budget_elapsed run2 = false →
  ∃ report,
    main_file_scan_interface from_file walk1 run1 = Ok report
    ∧ main_file_scan_interface from_file walk2 run2 = Ok report.
Proof.
  intros Hperm Hrun1 Hb1 Hrun2 Hb2.
  destruct (scan_run_complete from_file walk1 run1 Hrun1 Hb1)
    as (infos1 & report1 & Hscan1 & _ & Hr1).
  destruct (scan_run_complete from_file walk2 run2 Hrun2 Hb2)
    as (infos2 & report2 & Hscan2 & _ & Hr2).
  exists report1. split; [by eapply main_of_scan_run|].
  assert (report2 = report1) as <-; [|by eapply main_of_scan_run].
  apply map_eq. intros p. rewrite Hr1, Hr2.
  destruct (decide (p ∈ scan_directory_for_files walk1)) as [H1|H1],
           (decide (p ∈ scan_directory_for_files walk2)) as [H2|H2];
    try done; exfalso.
  - apply H2. by rewrite <- Hperm.
  - apply H1. by rewrite Hperm.
Qed.

Lemma report_independent_of_order_witness :
  let walk2 := [("docs", [], ["c.txt"; "a.txt"; "b.txt"])] in
  let run1 := Completion ["docs/b.txt"; "docs/c.txt"; "docs/a.txt"] false in
  let run2 := Completion ["docs/a.txt"; "docs/b.txt"; "docs/c.txt"] false in
  ∃ report,
    main_file_scan_interface scenario_service scenario_walk run1 = Ok report
    ∧ main_file_scan_interface scenario_service walk2 run2 = Ok report.
Proof.
  intros walk2 run1 run2.
  apply (report_independent_of_order scenario_service scenario_walk walk2
           run1 run2).
  - apply (bool_decide_unpack _). vm_compute. exact I.
  - split; [|split]; apply (bool_decide_unpack _); vm_compute; exact I.
  - reflexivity.
  - split; [|split]; apply (bool_decide_unpack _); vm_compute; exact I.
  - reflexivity.
Defined.
(** C8, as stated, fails: over the same directory and with the same
    answers of the service, a run in which every future is handed over
    returns the report, and a run in which the budget runs out first does
    not. *)
Lemma report_differs_when_budget_elapses :
  let run1 := Completion ["docs/b.txt"; "docs/c.txt"; "docs/a.txt"] false in
  let run2 := Completion ["docs/a.txt"] true in
  run_of scenario_walk run1 ∧ run_of scenario_walk run2
  ∧ main_file_scan_interface scenario_service scenario_walk run1
    = Ok {[ "docs/a.txt" := ReportEntry "No" "Yes" ]}
  ∧ main_file_scan_interface scenario_service scenario_walk run2
    = Raise TimeoutError
  ∧ ¬ (∀ from_file walk1 walk2 run1 run2,
         scan_directory_for_files walk1 ≡ₚ scan_directory_for_files walk2 →
         run_of walk1 run1 → run_of walk2 run2 →
         main_file_scan_interface from_file walk1 run1
         = main_file_scan_interface from_file walk2 run2).
Proof.
  intros run1 run2.
  assert (run_of scenario_walk run1) as Hrun1.
  { split; [|split]; apply (bool_decide_unpack _); vm_compute; exact I. }
  assert (run_of scenario_walk run2) as Hrun2.
  { split; [|split]; apply (bool_decide_unpack _); vm_compute; exact I. }
  assert (main_file_scan_interface scenario_service scenario_walk run1
          = Ok {[ "docs/a.txt" := ReportEntry "No" "Yes" ]}) as H1
    by (vm_compute; reflexivity).
  assert (main_file_scan_interface scenario_service scenario_walk run2
          = Raise TimeoutError) as H2 by (vm_compute; reflexivity).
  split; [done|]. split; [done|]. split; [done|]. split; [done|].
  intros Hall.
  specialize (Hall scenario_service scenario_walk scenario_walk run1 run2
                   (reflexivity _) Hrun1 Hrun2).
  rewrite H1, H2 in Hall. discriminate Hall.
Qed.
End OrchestratorClaims.

(** * Further properties of the code *)

(** ** scan_directory_for_files *)

Section Walker.
Implicit Types (walk : list walk_entry) (p : string).

Lemma walk_step (acc : list string) (e : walk_entry) :
  (let '(root, _, files_list) := e in
   let found := (λ file, root +:+ "/" +:+ file) <$> files_list in
   match files_list with
   | [] => acc
   | _ :: _ => match acc with [] => found | _ :: _ => acc ++ found end
   end)
  = acc ++ (let '(root, _, files_list) := e in
            (λ file, root +:+ "/" +:+ file) <$> files_list).
Proof.
  destruct e as [[root subs] [|f files]]; simpl.
  - by rewrite app_nil_r.
  - by destruct acc.
Qed.

Lemma walk_fold walk : ∀ acc,
  foldl (λ return_files_list '(root, _, files_list),
           let found := (λ file, root +:+ "/" +:+ file) <$> files_list in
           match files_list with
           | [] => return_files_list
           | _ :: _ =>
               match return_files_list with
               | [] => found
               | _ :: _ => return_files_list ++ found
               end
           end) acc walk
  = acc ++ mjoin ((λ '(root, _, files_list),
                     (λ file, root +:+ "/" +:+ file) <$> files_list) <$> walk).
Proof.
  induction walk as [|e walk IH]; intros acc; simpl.
  - by rewrite app_nil_r.
  - rewrite IH. destruct e as [[root subs] [|f files]]; simpl.
    + done.
    + destruct acc; simpl; [done|]. by rewrite <- app_assoc.
Qed.

Lemma walk_concat walk :
  scan_directory_for_files walk
  = mjoin ((λ '(root, _, files_list),
              (λ file, root +:+ "/" +:+ file) <$> files_list) <$> walk).
Proof. unfold scan_directory_for_files. by rewrite walk_fold. Qed.

(** X1: the walker returns, directory after directory in the order of the
    walk, the path [root/file] of every file; a directory without files adds
    nothing, the lists of subdirectories play no part, and the special case
    for the first non-empty directory gives the same list as [extend]. *)
Theorem scan_directory_for_files_concat walk :
  scan_directory_for_files walk
  = mjoin ((λ '(root, _, files_list),
              (λ file, root +:+ "/" +:+ file) <$> files_list) <$> walk).
Proof. apply walk_concat. Qed.

(** X2: a path is returned by the walker exactly when it is [root/file]
    for a file listed in some directory of the walk; and the number of paths
    is the number of files listed. *)
Theorem scan_directory_for_files_elem walk p :
  (p ∈ scan_directory_for_files walk
   ↔ ∃ root subdirectories files_list file,
       (root, subdirectories, files_list) ∈ walk ∧ file ∈ files_list
       ∧ p = root +:+ "/" +:+ file)
  ∧ length (scan_directory_for_files walk)
    = sum_list ((λ e : walk_entry, length e.2) <$> walk).
Proof.
  rewrite walk_concat. split.
  - rewrite list_elem_of_join. split.
    + intros (l & Hp & Hl). apply list_elem_of_fmap in Hl as ([[root subs] files] & -> & He).
      apply list_elem_of_fmap in Hp as (file & -> & Hf).
      by exists root, subs, files, file.
    + intros (root & subs & files & file & He & Hf & ->).
      exists ((λ file, root +:+ "/" +:+ file) <$> files). split.
      * apply list_elem_of_fmap. by exists file.
      * apply list_elem_of_fmap. by exists (root, subs, files).
  - rewrite length_join, <- list_fmap_compose. f_equal.
    apply list_fmap_ext. intros i [[root subs] files] _. simpl.
    by rewrite length_fmap.
Qed.
End Walker.

(** ** More on the Luhn checksum *)

Section LuhnMore.
Implicit Types (l ds : list nat) (s a b : list ascii) (c : ascii).

Lemma digits_of_app a b :
  digits_of (a ++ b)
  = (da ← digits_of a ; db ← digits_of b ; Ok (da ++ db)).
Proof.
  unfold digits_of. induction a as [|c a IH]; simpl.
  - by destruct (exc_mapM int_of_char b).
  - destruct (int_of_char c) as [d|]; simpl; [|done]. rewrite IH.
    destruct (exc_mapM int_of_char a) as [da|]; simpl; [|done].
    by destruct (exc_mapM int_of_char b).
Qed.

Lemma digits_of_cons c s :
  digits_of (c :: s) = (d ← int_of_char c ; ds ← digits_of s ; Ok (d :: ds)).
Proof. done. Qed.

Lemma int_of_char_cases c :
  (class_d c = true ∧ int_of_char c = Ok (code c - 48))
  ∨ (class_d c = false ∧ int_of_char c = Raise ValueError).
Proof. unfold int_of_char. destruct (class_d c); auto. Qed.

Lemma digits_of_Raise s e :
  digits_of s = Raise e → e = ValueError ∧ forallb class_d s = false.
Proof.
  induction s as [|c s IH]; [done|].
  rewrite digits_of_cons. cbn [forallb].
  destruct (int_of_char_cases c) as [[-> ->]|[-> ->]]; simpl.
  - destruct (digits_of s) as [ds|e']; simpl; [done|].
    intros [= <-]. by apply IH.
  - by intros [= <-].
Qed.

Lemma luhn_term_le i d : d ≤ 9 → luhn_term i d ≤ 9.
Proof.
  intros Hd. unfold luhn_term. destruct (Nat.odd i); [|done].
  do 10 (destruct d as [|d]; [vm_compute; lia|]). lia.
Qed.

Lemma luhn_term_inj i d d' :
  d ≤ 9 → d' ≤ 9 → luhn_term i d = luhn_term i d' → d = d'.
Proof.
  intros Hd Hd'. unfold luhn_term. destruct (Nat.odd i); [|done].
  do 10 (destruct d as [|d];
         [do 10 (destruct d' as [|d']; [vm_compute; lia|]); lia|]).
  lia.
Qed.

Lemma luhn_total_app l1 l2 : ∀ i,
  luhn_total i (l1 ++ l2) = luhn_total i l1 + luhn_total (i + length l1) l2.
Proof.
  induction l1 as [|d l1 IH]; intros i; simpl.
  - by rewrite Nat.add_0_r.
  - rewrite IH. replace (S i + length l1) with (i + S (length l1)) by lia. lia.
Qed.

Lemma luhn_total_split l1 l2 d :
  luhn_total 0 (rev (l1 ++ d :: l2))
  = luhn_total 0 (rev l2)
    + (luhn_term (length l2) d + luhn_total (S (length l2)) (rev l1)).
Proof.
  rewrite rev_app_distr. cbn [rev]. rewrite <- app_assoc. cbn [app].
  rewrite luhn_total_app. cbn [luhn_total]. by rewrite length_rev.
Qed.

(** Replacing one digit by another changes the total modulo 10. *)
Lemma luhn_spec_substitution l1 l2 d d' :
  d ≤ 9 → d' ≤ 9 → d ≠ d' →
  luhn_spec (l1 ++ d :: l2) = true → luhn_spec (l1 ++ d' :: l2) = false.
Proof.
  intros Hd Hd' Hne. unfold luhn_spec. rewrite !luhn_total_split.
  pose proof (luhn_term_le (length l2) d Hd) as Ht.
  pose proof (luhn_term_le (length l2) d' Hd') as Ht'.
  intros H. apply Nat.eqb_eq in H. apply Nat.eqb_neq. intros H'.
  apply Hne, (luhn_term_inj (length l2)); [done|done|].
  remember (luhn_term (length l2) d) as u.
  remember (luhn_term (length l2) d') as v.
  remember (luhn_total 0 (rev l2)) as t1.
  remember (luhn_total (S (length l2)) (rev l1)) as t2.
  pose proof (Nat.div_mod_eq (t1 + (u + t2)) 10) as E1. rewrite H in E1.
  pose proof (Nat.div_mod_eq (t1 + (v + t2)) 10) as E2. rewrite H' in E2.
  remember ((t1 + (u + t2)) / 10) as q1. remember ((t1 + (v + t2)) / 10) as q2.
  clear - E1 E2 Ht Ht'. lia.
Qed.

Lemma int_of_char_inj c c' d :
  int_of_char c = Ok d → int_of_char c' = Ok d → c = c'.
Proof.
  intros H H'.
  destruct (int_of_char_cases c) as [[Hc E]|[_ E]]; rewrite E in H; [|done].
  destruct (int_of_char_cases c') as [[Hc' E']|[_ E']]; rewrite E' in H'; [|done].
  injection H as H. injection H' as H'.
  unfold class_d, digit09, in_range in Hc, Hc'.
  apply andb_true_iff in Hc as [Hc _]. apply andb_true_iff in Hc' as [Hc' _].
  apply Nat.leb_le in Hc, Hc'. unfold code in *.
  rewrite <- (ascii_nat_embedding c), <- (ascii_nat_embedding c').
  f_equal. lia.
Qed.

(** X3: [luhn_checksum] answers exactly on the strings of decimal digits;
    on any other string, for instance one that still holds a separator,
    [int] raises [ValueError]. *)
Theorem luhn_checksum_raises_iff_non_digit s :
  ((∃ valid, luhn_checksum s = Ok valid) ↔ forallb class_d s = true)
  ∧ (luhn_checksum s = Raise ValueError ↔ forallb class_d s = false).
Proof.
  rewrite luhn_checksum_spec.
  destruct (digits_of s) as [ds|e] eqn:Hds; simpl.
  - apply digits_of_Ok in Hds as [Hs _]. rewrite Hs.
    split; split; try done. eauto.
  - apply digits_of_Raise in Hds as [-> Hs]. rewrite Hs.
    split; split; try done. by intros [? ?].
Qed.

(** X4: the checksum detects every substitution of a single digit: a valid
    number in which one digit is replaced by a different digit is
    invalid. *)
Theorem luhn_checksum_detects_substitution a b c c' :
  luhn_checksum (a ++ c :: b) = Ok true →
  class_d c' = true → c' ≠ c →
  luhn_checksum (a ++ c' :: b) = Ok false.
Proof.
  rewrite !luhn_checksum_spec, !digits_of_app, !digits_of_cons.
  destruct (digits_of a) as [da|] eqn:Ha; simpl; [|done].
  destruct (int_of_char c) as [d|] eqn:Hc; simpl; [|done].
  destruct (digits_of b) as [db|] eqn:Hb; simpl; [|done].
  intros [= Hvalid] Hc' Hne.
  unfold int_of_char at 1. rewrite Hc'. simpl. f_equal.
  apply int_of_char_Ok in Hc as Hd. destruct Hd as [_ Hd].
  assert (int_of_char c' = Ok (code c' - 48)) as Hc'd
    by (unfold int_of_char; by rewrite Hc').
  apply int_of_char_Ok in Hc'd as Hd'. destruct Hd' as [_ Hd'].
  eapply luhn_spec_substitution; [exact Hd|exact Hd'| |exact Hvalid].
  intros Heq. apply Hne. symmetry. eapply int_of_char_inj; [exact Hc|].
  by rewrite Hc'd, Heq.
Qed.

Lemma luhn_checksum_detects_substitution_witness :
  luhn_checksum (txt "411111111111" ++ "1"%char :: txt "111") = Ok true
  ∧ luhn_checksum (txt "411111111111" ++ "7"%char :: txt "111") = Ok false.
Proof.
  assert (luhn_checksum (txt "411111111111" ++ "1"%char :: txt "111") = Ok true)
    as H by (vm_compute; reflexivity).
  split; [exact H|].
  apply (luhn_checksum_detects_substitution _ _ _ "7"%char H);
    [vm_compute; reflexivity|]. intros [=].
Defined.

(** X5: zeros in front do not change the answer of [luhn_checksum]. *)
Theorem luhn_checksum_leading_zero s :
  luhn_checksum ("0"%char :: s) = luhn_checksum s.
Proof.
  rewrite !luhn_checksum_spec, digits_of_cons.
  change (int_of_char "0") with (Ok (A:=nat) 0). simpl.
  destruct (digits_of s) as [ds|]; simpl; [|done].
  f_equal. unfold luhn_spec. f_equal. f_equal. cbn [rev].
  rewrite luhn_total_app. cbn [luhn_total].
  unfold luhn_term. destruct (Nat.odd _); cbn [Nat.mul Nat.add Nat.ltb Nat.leb];
    lia.
Qed.

Lemma int_of_char_digit d :
  d ≤ 9 → class_d (ascii_of_nat (48 + d)) = true
          ∧ int_of_char (ascii_of_nat (48 + d)) = Ok d.
Proof.
  intros Hd. do 10 (destruct d as [|d]; [split; vm_compute; reflexivity|]). lia.
Qed.

Lemma check_digit_sum t :
  (10 - t mod 10) mod 10 ≤ 9 ∧ ((10 - t mod 10) mod 10 + t) mod 10 = 0.
Proof.
  pose proof (Nat.mod_upper_bound t 10 ltac:(lia)) as Hlt.
  pose proof (Nat.div_mod_eq t 10) as Hdm.
  pose proof (Nat.mod_upper_bound (10 - t mod 10) 10 ltac:(lia)) as Hlt'.
  split; [lia|].
  destruct (decide (t mod 10 = 0)) as [Hz|Hnz].
  - rewrite Hz. change ((10 - 0) mod 10) with 0. by rewrite Nat.add_0_l.
  - rewrite (Nat.mod_small (10 - t mod 10)) by lia.
    replace (10 - t mod 10 + t) with ((1 + t / 10) * 10) by lia.
    apply Nat.Div0.mod_mul.
Qed.

Lemma check_digit_unique t d d' :
  d ≤ 9 → d' ≤ 9 → (d + t) mod 10 = 0 → (d' + t) mod 10 = 0 → d = d'.
Proof.
  intros Hd Hd' H H'.
  pose proof (Nat.div_mod_eq (d + t) 10) as E1. rewrite H in E1.
  pose proof (Nat.div_mod_eq (d' + t) 10) as E2. rewrite H' in E2.
  remember ((d + t) / 10) as q1. remember ((d' + t) / 10) as q2.
  clear - E1 E2 Hd Hd'. lia.
Qed.

(** X6: every digit string has exactly one check digit: one decimal digit
    that, appended on the right, makes the number valid. *)
Theorem luhn_check_digit_exists_unique s :
  forallb class_d s = true →
  ∃ c, class_d c = true
       ∧ luhn_checksum (s ++ [c]) = Ok true
       ∧ ∀ c', class_d c' = true → luhn_checksum (s ++ [c']) = Ok true → c' = c.
Proof.
  intros Hs. destruct (digits_of_digits s Hs) as [ds Hds].
  set (t := luhn_total 1 (rev ds)).
  destruct (check_digit_sum t) as [Hd Hsum].
  set (d := (10 - t mod 10) mod 10) in *.
  destruct (int_of_char_digit d Hd) as [Hc Hcd].
  assert (∀ c' d', int_of_char c' = Ok d' →
            luhn_checksum (s ++ [c']) = Ok ((d' + t) mod 10 =? 0)) as Hform.
  { intros c' d' Hc'. rewrite luhn_checksum_spec, digits_of_app, Hds.
    rewrite digits_of_cons, Hc'. simpl. f_equal. unfold luhn_spec.
    rewrite rev_app_distr. cbn [rev app luhn_total]. by unfold luhn_term. }
  exists (ascii_of_nat (48 + d)). split; [done|]. split.
  - rewrite (Hform _ _ Hcd). f_equal. by apply Nat.eqb_eq.
  - intros c' Hc' Hvalid.
    destruct (int_of_char_cases c') as [[_ Hc'd]|[Hn _]]; [|congruence].
    apply int_of_char_Ok in Hc'd as Hd'. destruct Hd' as [_ Hd'].
    rewrite (Hform _ _ Hc'd) in Hvalid. injection Hvalid as Hvalid.
    apply Nat.eqb_eq in Hvalid.
    eapply int_of_char_inj; [exact Hc'd|]. rewrite Hcd. f_equal.
    by apply (check_digit_unique t).
Qed.

Lemma luhn_check_digit_exists_unique_witness :
  ∃ c, class_d c = true
       ∧ luhn_checksum (txt "411111111111111" ++ [c]) = Ok true
       ∧ ∀ c', class_d c' = true →
               luhn_checksum (txt "411111111111111" ++ [c']) = Ok true → c' = c.
Proof.
  apply (luhn_check_digit_exists_unique (txt "411111111111111")).
  vm_compute. reflexivity.
Defined.
Lemma luhn_term_linear k d :
  d ≤ 9 →
  luhn_term k d
  = if Nat.odd k then (if d <=? 4 then 2 * d else 2 * d - 9) else d.
Proof.
  intros Hd. unfold luhn_term. destruct (Nat.odd k); [|done].
  do 10 (destruct d as [|d]; [reflexivity|]). lia.
Qed.

Lemma luhn_pair_swap k d1 d2 q1 q2 :
  d1 ≤ 9 → d2 ≤ 9 → d1 ≠ d2 →
  ¬ (d1 = 0 ∧ d2 = 9) → ¬ (d1 = 9 ∧ d2 = 0) →
  luhn_term k d2 + luhn_term (S k) d1 + 10 * q2
  ≠ luhn_term k d1 + luhn_term (S k) d2 + 10 * q1.
Proof.
  intros H1 H2 Hne H09 H90. rewrite !luhn_term_linear by done.
  rewrite Nat.odd_succ, <- Nat.negb_odd. destruct (Nat.odd k); cbn [negb];
    destruct (Nat.leb_spec d1 4), (Nat.leb_spec d2 4); lia.
Qed.

Lemma luhn_spec_transposition l1 l2 d1 d2 :
  d1 ≤ 9 → d2 ≤ 9 → d1 ≠ d2 →
  ¬ (d1 = 0 ∧ d2 = 9) → ¬ (d1 = 9 ∧ d2 = 0) →
  luhn_spec (l1 ++ d1 :: d2 :: l2) = true →
  luhn_spec (l1 ++ d2 :: d1 :: l2) = false.
Proof.
  intros H1 H2 Hne H09 H90. unfold luhn_spec.
  replace (l1 ++ d1 :: d2 :: l2) with ((l1 ++ [d1]) ++ d2 :: l2)
    by (by rewrite <- app_assoc).
  replace (l1 ++ d2 :: d1 :: l2) with ((l1 ++ [d2]) ++ d1 :: l2)
    by (by rewrite <- app_assoc).
  rewrite !luhn_total_split, !rev_app_distr. cbn [rev app luhn_total].
  intros H. apply Nat.eqb_eq in H. apply Nat.eqb_neq. intros H'.
  remember (luhn_total 0 (rev l2)) as t1.
  remember (luhn_total (S (S (length l2))) (rev l1)) as t2.
  pose proof (Nat.div_mod_eq
                (t1 + (luhn_term (length l2) d2
                       + (luhn_term (S (length l2)) d1 + t2))) 10) as E1.
  rewrite H in E1.
  pose proof (Nat.div_mod_eq
                (t1 + (luhn_term (length l2) d1
                       + (luhn_term (S (length l2)) d2 + t2))) 10) as E2.
  rewrite H' in E2.
  match type of E1 with _ = 10 * ?q + 0 => remember q as q1 end.
  match type of E2 with _ = 10 * ?q + 0 => remember q as q2 end.
  apply (luhn_pair_swap (length l2) d1 d2 q1 q2 H1 H2 Hne H09 H90).
  clear - E1 E2. lia.
Qed.

(** X17: the checksum detects the exchange of two neighbouring digits,
    unless they are equal or are 0 and 9: a valid number in which two such
    neighbours are swapped is invalid. *)
Theorem luhn_checksum_detects_transposition a b c1 c2 :
  luhn_checksum (a ++ c1 :: c2 :: b) = Ok true →
  c1 ≠ c2 →
  ¬ (c1 = "0"%char ∧ c2 = "9"%char) → ¬ (c1 = "9"%char ∧ c2 = "0"%char) →
  luhn_checksum (a ++ c2 :: c1 :: b) = Ok false.
Proof.
  rewrite !luhn_checksum_spec, !digits_of_app, !digits_of_cons.
  destruct (digits_of a) as [da|] eqn:Ha; simpl; [|done].
  destruct (int_of_char c1) as [d1|] eqn:Hc1; simpl; [|done].
  destruct (int_of_char c2) as [d2|] eqn:Hc2; simpl; [|done].
  destruct (digits_of b) as [db|] eqn:Hb; simpl; [|done].
  intros [= Hvalid] Hne H09 H90. f_equal.
  apply int_of_char_Ok in Hc1 as Hd1. destruct Hd1 as [_ Hd1].
  apply int_of_char_Ok in Hc2 as Hd2. destruct Hd2 as [_ Hd2].
  apply luhn_spec_transposition; try done.
  - intros ->. apply Hne. by eapply int_of_char_inj.
  - intros [-> ->]. apply H09.
    split; eapply int_of_char_inj; try eassumption; done.
  - intros [-> ->]. apply H90.
    split; eapply int_of_char_inj; try eassumption; done.
Qed.

Lemma luhn_checksum_detects_transposition_witness :
  luhn_checksum (txt "49927398" ++ "7"%char :: "1"%char :: txt "6") = Ok true
  ∧ luhn_checksum (txt "49927398" ++ "1"%char :: "7"%char :: txt "6") = Ok false.
Proof.
  assert (luhn_checksum (txt "49927398" ++ "7"%char :: "1"%char :: txt "6")
          = Ok true) as H by (vm_compute; reflexivity).
  split; [exact H|].
  apply (luhn_checksum_detects_transposition _ _ _ _ H).
  - intros [=].
  - intros [[=] _].
  - intros [[=] _].
Defined.
End LuhnMore.

(** ** More on the detection step *)

Section DetectionMore.
Implicit Types (text m pre post : list ascii) (c : ascii).

(** X7: the two guarded [replace] calls keep exactly the characters that
    are neither a hyphen nor a space, in their order; doing it twice changes
    nothing more, and a string of digits is left as it is. *)
Theorem sanitize_removes_separators m :
  sanitize m = filter (λ c, c ≠ "-"%char ∧ c ≠ " "%char) m
  ∧ sanitize (sanitize m) = sanitize m
  ∧ (forallb class_d m = true → sanitize m = m).
Proof.
  assert (∀ w, sanitize w = filter (λ c, c ≠ "-"%char ∧ c ≠ " "%char) w) as Hf.
  { intros w. rewrite sanitize_strip. unfold strip_separators, remove_char.
    rewrite list_filter_filter. apply list_filter_iff. intros x. tauto. }
  split; [apply Hf|]. split.
  - rewrite !Hf, list_filter_filter. apply list_filter_iff. intros x. tauto.
  - intros Hd. rewrite sanitize_strip. by apply strip_digits.
Qed.

Lemma candidate_length m : weak_cc_candidate m → length m ≤ 20.
Proof.
  intros (q & s1 & g1 & s2 & g2 & s3 & g3 & -> & Hq
          & Hs1 & Hg1 & Hs2 & Hg2 & Hs3 & Hg3).
  apply cc_prefix4_digits in Hq as [_ Hq].
  apply group_length in Hs1, Hg1, Hs2, Hg2, Hs3, Hg3.
  rewrite !length_app. lia.
Qed.

Lemma candidate_prefix m :
  weak_cc_candidate m → cc_prefix4 (take 4 (strip_separators m)) = true.
Proof.
  intros (q & s1 & g1 & s2 & g2 & s3 & g3 & -> & Hq
          & Hs1 & Hg1 & Hs2 & Hg2 & Hs3 & Hg3).
  rewrite strip_candidate by done.
  destruct (cc_prefix4_digits _ Hq) as [_ Hlen].
  rewrite take_app_length' by done. done.
Qed.

(** X8: what the card pattern matches is at most 20 characters long, and
    once sanitized it is a string of 13 to 17 decimal digits that starts
    with 4ddd, 5[0-5]dd, 6ddd, 1ddd or 3ddd; so [luhn_checksum] answers on
    it. *)
Theorem weak_cc_match_is_digit_string text s e :
  search weak_credit_card_regex text = Some (s, e) →
  length (group0 (s, e)) ≤ 20
  ∧ forallb class_d (sanitize (group0 (s, e))) = true
  ∧ 13 ≤ length (sanitize (group0 (s, e))) ≤ 17
  ∧ cc_prefix4 (take 4 (sanitize (group0 (s, e)))) = true
  ∧ ∃ valid, luhn_checksum (sanitize (group0 (s, e))) = Ok valid.
Proof.
  intros Hs.
  apply cc_search_Some in Hs as (pre & m & post & (_ & Hm & _) & _ & ->).
  rewrite sanitize_strip. destruct (candidate_stripped m Hm) as [Hd Hlen].
  split; [by apply candidate_length|]. split; [done|]. split; [done|].
  split; [by apply candidate_prefix|]. by apply luhn_checksum_digits.
Qed.

Lemma weak_cc_match_is_digit_string_witness :
  let text := txt "card 5011-1111 1111-1117." in
  let s := Cursor (rev (txt "card ")) (txt "5011-1111 1111-1117.") in
  let e := Cursor (rev (txt "card 5011-1111 1111-1117")) (txt ".") in
  search weak_credit_card_regex text = Some (s, e)
  ∧ sanitize (group0 (s, e)) = txt "5011111111111117"
  ∧ length (group0 (s, e)) ≤ 20
    ∧ forallb class_d (sanitize (group0 (s, e))) = true
    ∧ 13 ≤ length (sanitize (group0 (s, e))) ≤ 17
    ∧ cc_prefix4 (take 4 (sanitize (group0 (s, e)))) = true
    ∧ ∃ valid, luhn_checksum (sanitize (group0 (s, e))) = Ok valid.
Proof.
  intros text s e.
  assert (search weak_credit_card_regex text = Some (s, e)) as Hs
    by (vm_compute; reflexivity).
  split; [exact Hs|]. split; [vm_compute; reflexivity|].
  exact (weak_cc_match_is_digit_string text s e Hs).
Defined.

Lemma digits_end_with_word w :
  forallb class_d w = true → w ≠ [] → ends_with_word w = true.
Proof.
  intros Hw Hne. apply (ends_with_word_digits 1 (length w)); [lia|].
  apply group_intro; [|done]. destruct w; [done|]. simpl. lia.
Qed.

Lemma digits_start_with_word w :
  forallb class_d w = true → w ≠ [] → starts_with_word w = true.
Proof.
  intros Hw Hne. destruct w as [|x w]; [done|]. simpl in *.
  apply andb_true_iff in Hw as [Hx _]. by apply digit09_word.
Qed.

(** X9: a text that is one run of 18 or more digits is never reported as
    a card, whatever its checksum: the pattern takes at most 17 digits and
    a longer run leaves no word boundary to end on. *)
Theorem long_digit_run_is_not_a_card text :
  forallb class_d text = true → 18 ≤ length text →
  cc_detector text = Ok false.
Proof.
  intros Hd Hlen. destruct (cc_detector_total text) as [b Hb].
  destruct (cc_detector_first text b Hb)
    as [[-> _]|(pre & m & post & (Heq & Hm & [Hpre Hpost]) & _)]; [done|].
  exfalso. subst text. rewrite !forallb_app in Hd.
  apply andb_true_iff in Hd as [Hdpre Hd].
  apply andb_true_iff in Hd as [Hdm Hdpost].
  assert (pre = []) as ->.
  { destruct (decide (pre = [])) as [|Hne]; [done|].
    rewrite (digits_end_with_word pre Hdpre Hne) in Hpre. done. }
  assert (post = []) as ->.
  { destruct (decide (post = [])) as [|Hne]; [done|].
    rewrite (digits_start_with_word post Hdpost Hne) in Hpost. done. }
  destruct (candidate_stripped m Hm) as [_ Hlen17].
  rewrite (strip_digits m Hdm) in Hlen17.
  rewrite app_nil_r in Hlen. simpl in Hlen. lia.
Qed.

Lemma long_digit_run_is_not_a_card_witness :
  luhn_checksum (txt "4000000000000000006") = Ok true
  ∧ cc_detector (txt "4000000000000000006") = Ok false.
Proof.
  split; [vm_compute; reflexivity|].
  apply (long_digit_run_is_not_a_card (txt "4000000000000000006"));
    [vm_compute; reflexivity|vm_compute; lia].
Defined.

(** X10: a social security number that is found stays found when more
    text is put after it or before it, as long as a character that is not a
    letter, digit or underscore separates the two texts. *)
Theorem ssn_detector_survives_context text c more :
  class_w c = false → ssn_detector text = true →
  ssn_detector (text ++ c :: more) = true
  ∧ ssn_detector (more ++ c :: text) = true.
Proof.
  intros Hc Hfound.
  apply ssn_detector_contains in Hfound as (pre & m & post & -> & Hm & [Hpre Hpost]).
  split; apply ssn_detector_contains.
  - exists pre, m, (post ++ c :: more). split; [by rewrite <- !app_assoc|].
    split; [done|]. split; [done|]. by destruct post.
  - exists (more ++ c :: pre), m, post. split; [by rewrite <- !app_assoc|].
    split; [done|]. split; [|done].
    destruct (decide (pre = [])) as [->|Hne].
    + unfold ends_with_word. by rewrite last_snoc.
    + replace (more ++ c :: pre) with ((more ++ [c]) ++ pre)
        by (by rewrite <- app_assoc).
      by rewrite ends_with_word_app.
Qed.

Lemma ssn_detector_survives_context_witness :
  ssn_detector (txt "SSN: 123-45-6789") = true
  ∧ ssn_detector (txt "SSN: 123-45-6789" ++ ","%char :: txt " born 1970") = true
  ∧ ssn_detector (txt " born 1970" ++ ","%char :: txt "SSN: 123-45-6789") = true.
Proof.
  assert (ssn_detector (txt "SSN: 123-45-6789") = true) as H
    by (vm_compute; reflexivity).
  split; [exact H|].
  apply (ssn_detector_survives_context _ ","%char); [vm_compute; reflexivity|exact H].
Defined.

(** X16: the detection step only ever sets flags: it answers on every
    text, keeps the status and the flags already set, sets
    [social_security_found] exactly when the SSN pattern is found and
    [credit_card_found] exactly when the first card candidate passes the
    checksum, and asks for a report entry exactly when one of the two
    happens. *)
Theorem detect_only_sets_flags (info : file_info) text :
  ∃ info' flag_file cc,
    detect info (Some text) = Ok (info', flag_file)
    ∧ cc_detector text = Ok cc
    ∧ scanned info' = scanned info
    ∧ social_security_found info'
      = social_security_found info || ssn_detector text
    ∧ credit_card_found info' = credit_card_found info || cc
    ∧ flag_file = ssn_detector text || cc.
Proof.
  destruct (cc_detector_total text) as [cc Hcc]. unfold detect. rewrite Hcc.
  destruct info as [st c0 s0]. simpl.
  destruct (ssn_detector text), cc; simpl; eexists _, _, _;
    repeat split; simpl; by rewrite ?orb_true_r, ?orb_false_r.
Qed.
End DetectionMore.

(** ** More on content_scan and the loop *)

Section ScanMore.
Implicit Types (from_file : string → exc parse_result)
  (walk : list walk_entry) (run : completion) (p : string)
  (text : list ascii).

(** X11: [content_scan] hands back the text of the service unchanged
    whenever the service answers, and the empty string with "NA" when it
    raises; the status "Y" always comes with a non-empty string, which is
    what the detection step searches. *)
Theorem content_scan_returns_service_text from_file p :
  ∃ parse_status parsed_content,
    content_scan from_file p = Ok (parse_status, parsed_content)
    ∧ (∀ r, from_file p = Ok r → parsed_content = content r)
    ∧ (∀ e, from_file p = Raise e →
            parse_status = "NA" ∧ parsed_content = Some [])
    ∧ (parse_status = "Y" → ∃ x text, parsed_content = Some (x :: text)).
Proof.
  destruct (content_scan_total from_file p) as (st & c & Hcs).
  exists st, c. split; [done|]. split; [|split].
  - intros r Hr. rewrite (content_scan_Ok _ _ _ Hr) in Hcs. by injection Hcs.
  - intros e He. rewrite (content_scan_Raise _ _ _ He) in Hcs.
    by injection Hcs as <- <-.
  - intros ->. apply content_scan_Y in Hcs as (r & x & text & _ & _ & -> & _).
    eauto.
Qed.

Lemma findings_extracted from_file p text :
  from_file p = Ok (ParseResult (Some 200) (Some text)) → text ≠ [] →
  ∃ cc, cc_detector text = Ok cc
        ∧ findings from_file p = FileInfo "Y" cc (ssn_detector text).
Proof.
  intros Hr Hne. destruct (cc_detector_total text) as [cc Hcc].
  exists cc. split; [done|]. unfold findings.
  rewrite (content_scan_Ok _ _ _ Hr). simpl.
  destruct text as [|x text]; [done|]. simpl. by rewrite Hcc.
Qed.

Lemma findings_unextracted from_file p :
  (∀ r, from_file p = Ok r →
        status r ≠ Some 200 ∨ truthy (content r) = false) →
  flagged (findings from_file p) = false.
Proof.
  intros H. destruct (flagged (findings from_file p)) eqn:Hf; [|done].
  exfalso. apply findings_flagged in Hf. unfold findings in Hf.
  destruct (from_file p) as [r|e] eqn:Hr.
  - rewrite (content_scan_Ok _ _ _ Hr) in Hf.
    destruct (H r eq_refl) as [Hst|Ht].
    + rewrite (bool_decide_eq_false_2 (status r = Some 200)) in Hf by done.
      destruct (truthy (content r)), (content r) as [text|];
        repeat case_bool_decide; simpl in Hf; try done.
    + rewrite Ht in Hf. destruct (content r); simpl in Hf; try done.
  - rewrite (content_scan_Raise _ _ _ Hr) in Hf.
    case_bool_decide; simpl in Hf; done.
Qed.

(** X12: end to end, for a file the service extracts (status 200, some
    text): the report has an entry for it exactly when the SSN pattern is
    found in the text or its first card candidate passes the checksum, and
    the entry says "Yes" or "No" for each of the two accordingly. *)
Theorem report_entry_of_extracted_text from_file walk run p text :
  run_of walk run → budget_elapsed run = false →
  p ∈ scan_directory_for_files walk →
  from_file p = Ok (ParseResult (Some 200) (Some text)) → text ≠ [] →
  ∃ report cc,
    main_file_scan_interface from_file walk run = Ok report
    ∧ cc_detector text = Ok cc
    ∧ report !! p
      = if ssn_detector text || cc
        then Some (ReportEntry (yes_no cc) (yes_no (ssn_detector text)))
        else None.
Proof.
  intros Hrun Hb Hp Hr Hne.
  destruct (scan_run_complete from_file walk run Hrun Hb)
    as (infos & report & Hscan & _ & Hrep).
  destruct (findings_extracted from_file p text Hr Hne) as (cc & Hcc & Hf).
  exists report, cc. split; [by eapply main_of_scan_run|]. split; [done|].
  rewrite Hrep, decide_True by done. by rewrite Hf.
Qed.

Lemma report_entry_of_extracted_text_witness :
  let run := Completion ["docs/c.txt"; "docs/a.txt"; "docs/b.txt"] false in
  ∃ report cc,
    main_file_scan_interface scenario_service scenario_walk run = Ok report
    ∧ cc_detector (txt "SSN: 123-45-6789") = Ok cc
    ∧ report !! "docs/a.txt"
      = if ssn_detector (txt "SSN: 123-45-6789") || cc
        then Some (ReportEntry (yes_no cc)
                               (yes_no (ssn_detector (txt "SSN: 123-45-6789"))))
        else None.
Proof.
  intros run.
  apply (report_entry_of_extracted_text scenario_service scenario_walk run
           "docs/a.txt" (txt "SSN: 123-45-6789")).
  - split; [|split]; apply (bool_decide_unpack _); vm_compute; exact I.
  - reflexivity.
  - apply (bool_decide_unpack _). vm_compute. exact I.
  - vm_compute. reflexivity.
  - intros [=].
Defined.

(** X13: a file is left out of the report whenever the service raised for
    it, answered with a status other than 200, or returned no text, even if
    a text returned with such a status holds a social security or card
    number: the detectors only run on status "Y". *)
Theorem unextracted_file_is_not_reported from_file walk run p :
  run_of walk run → budget_elapsed run = false →
  (∀ r, from_file p = Ok r →
        status r ≠ Some 200 ∨ truthy (content r) = false) →
  ∃ report,
    main_file_scan_interface from_file walk run = Ok report
    ∧ report !! p = None.
Proof.
  intros Hrun Hb H.
  destruct (scan_run_complete from_file walk run Hrun Hb)
    as (infos & report & Hscan & _ & Hrep).
  exists report. split; [by eapply main_of_scan_run|].
  rewrite Hrep. destruct (decide (p ∈ scan_directory_for_files walk)); [|done].
  by rewrite findings_unextracted.
Qed.

Lemma unextracted_file_is_not_reported_witness :
  let from_file := λ _ : string,
    Ok (ParseResult (Some 204) (Some (txt "SSN: 123-45-6789"))) in
  let run := Completion ["docs/c.txt"; "docs/a.txt"; "docs/b.txt"] false in
  ssn_detector (txt "SSN: 123-45-6789") = true
  ∧ ∃ report,
      main_file_scan_interface from_file scenario_walk run = Ok report
      ∧ report !! "docs/a.txt" = None.
Proof.
  intros from_file run. split; [vm_compute; reflexivity|].
  apply (unextracted_file_is_not_reported from_file scenario_walk run
           "docs/a.txt").
  - split; [|split]; apply (bool_decide_unpack _); vm_compute; exact I.
  - reflexivity.
  - intros r [= <-]. left. intros [=].
Defined.

(** X14: the report only has entries for files of the walk, and every
    entry says "Yes" for at least one of the two categories. *)
Theorem report_entries_are_positive from_file walk run :
  run_of walk run → budget_elapsed run = false →
  ∃ report,
    main_file_scan_interface from_file walk run = Ok report
    ∧ ∀ p entry, report !! p = Some entry →
        p ∈ scan_directory_for_files walk
        ∧ (report_credit_card_found entry = "Yes"
           ∨ report_social_security_found entry = "Yes").
Proof.
  intros Hrun Hb.
  destruct (scan_run_complete from_file walk run Hrun Hb)
    as (infos & report & Hscan & _ & Hrep).
  exists report. split; [by eapply main_of_scan_run|].
  intros p entry. rewrite Hrep.
  destruct (decide (p ∈ scan_directory_for_files walk)); [|done].
  destruct (flagged (findings from_file p)) eqn:Hf; [|done].
  intros [= <-]. split; [done|]. unfold flagged in Hf. simpl.
  destruct (social_security_found _), (credit_card_found _); simpl; auto.
  done.
Qed.

Lemma report_entries_are_positive_witness :
  let run := Completion ["docs/c.txt"; "docs/a.txt"; "docs/b.txt"] false in
  ∃ report,
    main_file_scan_interface scenario_service scenario_walk run = Ok report
    ∧ ∀ p entry, report !! p = Some entry →
        p ∈ scan_directory_for_files scenario_walk
        ∧ (report_credit_card_found entry = "Yes"
           ∨ report_social_security_found entry = "Yes").
Proof.
  intros run.
  apply (report_entries_are_positive scenario_service scenario_walk run).
  - split; [|split]; apply (bool_decide_unpack _); vm_compute; exact I.
  - reflexivity.
Defined.

(** X15: when no directory of the walk lists a file, the function returns
    the empty report at once: no future is created, the service is not
    called, and no timeout can occur. *)
Theorem no_files_gives_empty_report from_file walk run :
  (∀ e, e ∈ walk → e.2 = []) →
  scan_directory_for_files walk = []
  ∧ main_file_scan_interface from_file walk run = Ok ∅.
Proof.
  intros Hempty.
  assert (scan_directory_for_files walk = []) as Hnil.
  { rewrite walk_concat. apply join_nil, Forall_fmap.
    apply Forall_forall. intros [[root subs] files] He.
    apply Hempty in He. simpl in *. by subst. }
  split; [done|].
  unfold main_file_scan_interface, scan_run. rewrite Hnil.
  rewrite bool_decide_eq_false_2; [done|]. intros Hne. by apply Hne.
Qed.

Lemma no_files_gives_empty_report_witness :
  let walk := [("empty", ["sub"], []); ("empty/sub", [], [])] in
  scan_directory_for_files walk = []
  ∧ main_file_scan_interface scenario_service walk (Completion [] true) = Ok ∅.
Proof.
  intros walk.
  apply (no_files_gives_empty_report scenario_service walk (Completion [] true)).
  intros e He. apply elem_of_cons in He as [->|He]; [done|].
  apply elem_of_cons in He as [->|He]; [done|]. by apply elem_of_nil in He.
Defined.
End ScanMore.
